(** * WebChatty: request parsing, read routes, memory accounts, event dispatcher

    A shallow embedding of the WebChatty backend sources
    ([QueryParser.ts], the [/v2/getPost], [/v2/waitForEvent] and
    [/v2/clientData/setCategoryFilters] routes, [MemoryAccountConnector])
    together with models of the event log, the event dispatcher and the
    nuke pruning of thread trees. *)

From Stdlib Require Import ZArith Lia List String Ascii.
From stdpp Require Import base option list gmap strings pretty sorting.

Local Open Scope string_scope.
Local Open Scope list_scope.
Local Open Scope Z_scope.

(** ** JavaScript values used by the sources *)

Module Js.

(** A JavaScript [number] holding an integer, or [NaN].  The sources only
    produce numbers by parsing digit strings, so no fraction occurs.  An
    integer is kept exactly, where a double rounds it once it exceeds 2^53:
    the model agrees with the code on every comparison against a bound
    below 2^53 (a value beyond 2^53 stays beyond it when rounded), and not
    above that; every bound the routes compare against lies below 2^31. *)
Inductive number : Type :=
| NaN : number
| Num : Z -> number.

Definition number_eq_dec (x y : number) : {x = y} + {x <> y}.
Proof. decide equality. apply Z.eq_dec. Defined.

(** [x >= y], [x <= y], [x < y], [x > y] where the right operand is a
    finite integer: every comparison with [NaN] is false. *)
Definition geb (x : number) (y : Z) : bool :=
  match x with NaN => false | Num z => y <=? z end.
Definition leb (x : number) (y : Z) : bool :=
  match x with NaN => false | Num z => z <=? y end.
Definition ltb (x : number) (y : Z) : bool :=
  match x with NaN => false | Num z => z <? y end.
Definition gtb (x : number) (y : Z) : bool :=
  match x with NaN => false | Num z => y <? z end.

(** The double quote character, for building messages. *)
Definition dquote : string := String (ascii_of_nat 34) EmptyString.

(** [s.length]: one character of the model stands for one code unit. *)
Definition length (s : string) : Z := Z.of_nat (String.length s).

(** [s.split(",")] for a one-character separator: the empty string gives
    one empty item, a trailing separator gives a trailing empty item. *)
Fixpoint split (sep : ascii) (s : string) : list string :=
  match s with
  | EmptyString => [EmptyString]
  | String c s' =>
      if Ascii.eqb c sep then EmptyString :: split sep s'
      else match split sep s' with
           | x :: xs => String c x :: xs
           | [] => [String c EmptyString]
           end
  end.

(** Value of a character as a digit: [0-9], [a-z], [A-Z]. *)
Definition digit_value (c : ascii) : option Z :=
  let n := Z.of_nat (nat_of_ascii c) in
  if (48 <=? n) && (n <=? 57) then Some (n - 48)
  else if (97 <=? n) && (n <=? 122) then Some (n - 97 + 10)
  else if (65 <=? n) && (n <=? 90) then Some (n - 65 + 10)
  else None.

Definition is_decimal_digit (c : ascii) : bool :=
  let n := Z.of_nat (nat_of_ascii c) in (48 <=? n) && (n <=? 57).

(** [/^[0-9]+$/.test(s)]: one or more characters, each a decimal digit
    (without the [m] flag, [$] only matches at the very end). *)
Fixpoint all_decimal_digits (s : string) : bool :=
  match s with
  | EmptyString => true
  | String c s' => is_decimal_digit c && all_decimal_digits s'
  end.

Definition integerRegEx_test (s : string) : bool :=
  match s with
  | EmptyString => false
  | String _ _ => all_decimal_digits s
  end.

(** The longest prefix of [s] made of digits of radix [R], read as a
    number in that radix, with the count of digits read. *)
Fixpoint digits_prefix (R : Z) (acc : Z) (count : nat) (s : string) : Z * nat :=
  match s with
  | EmptyString => (acc, count)
  | String c s' =>
      match digit_value c with
      | Some d => if d <? R then digits_prefix R (acc * R + d) (S count) s'
                  else (acc, count)
      | None => (acc, count)
      end
  end.

(** White space and line terminators among the first 256 code units. *)
Definition is_white_space (c : ascii) : bool :=
  let n := nat_of_ascii c in
  (Nat.eqb n 9 || Nat.eqb n 10 || Nat.eqb n 11 || Nat.eqb n 12
   || Nat.eqb n 13 || Nat.eqb n 32 || Nat.eqb n 160)%bool.

Fixpoint trim_start (s : string) : string :=
  match s with
  | String c s' => if is_white_space c then trim_start s' else s
  | EmptyString => s
  end.

(** [ToInt32] of an integer. *)
Definition ToInt32 (r : Z) : Z := (r + 2147483648) mod 4294967296 - 2147483648.

(** The global [parseInt(string, radix)] of ECMAScript: leading white
    space and a sign are skipped; a radix of 0 means 10 (or 16 after a
    [0x] prefix); a radix outside 2..36 gives [NaN]; the longest prefix of
    valid digits is read, and an empty prefix gives [NaN].  The value read
    is exact here; the code has it rounded to a double, which differs for
    values beyond 2^53 (see [number]). *)
Definition parseInt (str : string) (radix : Z) : number :=
  let S0 := trim_start str in
  let '(sign, S1) :=
    match S0 with
    | String c rest =>
        if Ascii.eqb c (ascii_of_nat 45) then (-1, rest)
        else if Ascii.eqb c (ascii_of_nat 43) then (1, rest)
        else (1, S0)
    | EmptyString => (1, S0)
    end in
  let R := ToInt32 radix in
  if (negb (R =? 0)) && ((R <? 2) || (36 <? R)) then NaN
  else
    let stripPrefix := (R =? 0) || (R =? 16) in
    let R1 := if R =? 0 then 10 else R in
    let '(R2, S2) :=
      match S1 with
      | String c0 (String c1 rest) =>
          if stripPrefix && Ascii.eqb c0 (ascii_of_nat 48)
             && (Ascii.eqb c1 (ascii_of_nat 120) || Ascii.eqb c1 (ascii_of_nat 88))
          then (16, rest) else (R1, S1)
      | _ => (R1, S1)
      end in
    match digits_prefix R2 0 0%nat S2 with
    | (_, O) => NaN
    | (v, _) => Num (sign * v)
    end.

(** [parseFloat(s)] on the strings that reach it in [getInteger]: those
    accepted by [integerRegEx], whose value is their decimal reading. *)
Definition parseFloat (s : string) : number :=
  if integerRegEx_test s then Num (fst (digits_prefix 10 0 0%nat s)) else NaN.

(** ASCII and Latin-1 [toLowerCase] of one code unit: A-Z and the
    accented capitals U+00C0..U+00DE except the multiplication sign. *)
Definition char_toLowerCase (c : ascii) : ascii :=
  let n := nat_of_ascii c in
  if ((65 <=? n) && (n <=? 90))%nat then ascii_of_nat (n + 32)
  else if ((192 <=? n) && (n <=? 222) && negb (n =? 215))%nat then ascii_of_nat (n + 32)
  else c.

Fixpoint toLowerCase (s : string) : string :=
  match s with
  | EmptyString => EmptyString
  | String c s' => String (char_toLowerCase c) (toLowerCase s')
  end.

(** [items.join(sep)]: the items with the separator between them. *)
Fixpoint join (sep : ascii) (items : list string) : string :=
  match items with
  | [] => EmptyString
  | x :: rest =>
      match rest with
      | [] => x
      | _ :: _ => x +:+ String sep (join sep rest)
      end
  end.

(** Whether the character occurs in the string. *)
Fixpoint contains (c : ascii) (s : string) : bool :=
  match s with
  | EmptyString => false
  | String d s' => Ascii.eqb d c || contains c s'
  end.

End Js.

Export Js(number(..)).

#[global] Instance number_eq_decision : EqDecision number := Js.number_eq_dec.

(** ** Errors raised by the API *)

(** [spec.apiError(code, message)]. *)
Record ApiError : Type := apiError { code : string; message : string }.

(** A computation that returns or throws an [ApiError]. *)
Inductive Result (A : Type) : Type :=
| Ok : A -> Result A
| Throw : ApiError -> Result A.
Arguments Ok {A} _.
Arguments Throw {A} _.

#[global] Instance Result_bind : MBind Result := fun A B k m =>
  match m with
  | Ok a => k a
  | Throw e => Throw e
  end.

#[global] Instance Result_ret : MRet Result := @Ok.

Definition is_Ok {A} (r : Result A) : bool :=
  match r with Ok _ => true | Throw _ => false end.

(** ** [QueryParser.ts] *)

(** The part of [express.Request] the parser reads: the method and the
    parsed query string and body, each a mapping from names to values. *)
Record Request : Type := {
  method : string;
  query : gmap string string;
  body : gmap string string
}.

Module QueryParser.

Definition ERR_ARGUMENT : string := "ERR_ARGUMENT".

(** [util.format] with a [%s] or [%d] hole: the pieces are appended. *)
Definition quoted (name : string) : string := Js.dquote +:+ name +:+ Js.dquote.

Definition params (req : Request) : gmap string string :=
  if String.eqb (method req) "GET" then query req else body req.

(** [has]: the name is present and its value is not the empty string.
    The maps of a [Request] hold the parameters that were sent; the [in]
    operator of the code also finds the members every object inherits from
    [Object.prototype], whose values are no strings.  For the names of
    [Object_prototype_names] below the code therefore differs from this
    definition, and the properties that depend on it exclude them. *)
Definition has (req : Request) (name : string) : bool :=
  match params req !! name with
  | Some v => negb (String.eqb v EmptyString)
  | None => false
  end.

Definition get (req : Request) (name : string) : Result string :=
  if negb (has req name) then
    Throw (apiError ERR_ARGUMENT ("Missing argument " +:+ quoted name))
  else
    match params req !! name with
    | Some v => Ok v
    | None => Ok EmptyString
    end.

Definition getBoolean (req : Request) (name : string) : Result bool :=
  value ← get req name;
  if String.eqb value "true" then Ok true
  else if String.eqb value "false" then Ok false
  else Throw (apiError ERR_ARGUMENT
         ("The value for parameter " +:+ quoted name
          +:+ " must be either " +:+ quoted "true" +:+ " or "
          +:+ quoted "false" +:+ "."))%string.

Definition getString (req : Request) (name : string)
    (minLength maxLength : option Z) : Result string :=
  let minLength := default 1 minLength in
  let maxLength := default 2147483647 maxLength in
  value ← get req name;
  if Js.length value <? minLength then
    Throw (apiError ERR_ARGUMENT
      ("The value for parameter " +:+ quoted name +:+ " must be at least "
       +:+ pretty minLength +:+ " character(s) long."))
  else if maxLength <? Js.length value then
    Throw (apiError ERR_ARGUMENT
      ("The value for parameter " +:+ quoted name +:+ " must be at most "
       +:+ pretty maxLength +:+ " character(s) long."))
  else Ok value.

(** unsigned 31-decimal integer 0..2147483647 *)
Definition getInteger (req : Request) (name : string)
    (min max : option Z) : Result number :=
  let min := default 0 min in
  let max := default 2147483647 max in
  str ← getString req name (Some 1) (Some 10);
  if negb (Js.integerRegEx_test str) then
    Throw (apiError ERR_ARGUMENT
      ("The value for parameter " +:+ quoted name +:+ " must be an integer."))
  else
    let num := Js.parseFloat str in
    if Js.ltb num min then
      Throw (apiError ERR_ARGUMENT
        ("The value for parameter " +:+ quoted name
         +:+ " must be greater than or equal to " +:+ pretty min +:+ "."))
    else if Js.gtb num max then
      Throw (apiError ERR_ARGUMENT
        ("The value for parameter " +:+ quoted name
         +:+ " must be less than or equal to " +:+ pretty max +:+ "."))
    else Ok num.

(** [lodash.map(list, parseInt)]: lodash calls the iteratee with
    [(value, index, collection)], and the global [parseInt] takes its
    second argument as the radix. *)
Definition lodash_map_parseInt (collection : list string) : list number :=
  imap (fun index value => Js.parseInt value (Z.of_nat index)) collection.

Definition getIntegerList (req : Request) (name : string)
    (minListCount maxListCount min max : option Z) : Result (list number) :=
  let minListCount := default 1 minListCount in
  let maxListCount := default 2147483647 maxListCount in
  let min := default 0 min in
  let max := default 2147483647 max in
  value ← get req name;
  let list := Js.split (ascii_of_nat 44) value in
  if Z.of_nat (length list) <? minListCount then
    Throw (apiError ERR_ARGUMENT
      ("The comma-separated list " +:+ quoted name +:+ " must have at least "
       +:+ pretty minListCount +:+ " item(s)."))
  else if maxListCount <? Z.of_nat (length list) then
    Throw (apiError ERR_ARGUMENT
      ("The comma-separated list " +:+ quoted name +:+ " must have at most  "
       +:+ pretty maxListCount +:+ " item(s)."))
  else if negb (forallb Js.integerRegEx_test list) then
    Throw (apiError ERR_ARGUMENT
      ("Each item in the comma-separated list " +:+ quoted name
       +:+ " must be an integer."))
  else
    let numbers := lodash_map_parseInt list in
    if negb (forallb (fun x => Js.geb x min) numbers) then
      Throw (apiError ERR_ARGUMENT
        ("Each item in the comma-separated list " +:+ quoted name
         +:+ " must be greater than or equal to " +:+ pretty min +:+ "."))
    else if negb (forallb (fun x => Js.leb x max) numbers) then
      Throw (apiError ERR_ARGUMENT
        ("Each item in the comma-separated list " +:+ quoted name
         +:+ " must be less than or equal to " +:+ pretty max +:+ "."))
    else Ok numbers.

Definition getOptionalBoolean (req : Request) (name : string)
    (defaultValue : bool) : Result bool :=
  if has req name then getBoolean req name else Ok defaultValue.

Definition getOptionalInteger (req : Request) (name : string)
    (defaultValue : number) (min max : option Z) : Result number :=
  if has req name then getInteger req name min max else Ok defaultValue.

Definition getOptionalString (req : Request) (name : string)
    (defaultValue : string) (minLength maxLength : option Z) : Result string :=
  if has req name then getString req name minLength maxLength else Ok defaultValue.

Definition getStringList (req : Request) (name : string)
    (minListCount maxListCount minStringLength maxStringLength : option Z)
  : Result (list string) :=
  let minListCount := default 1 minListCount in
  let maxListCount := default 2147483647 maxListCount in
  let minStringLength := default 1 minStringLength in
  let maxStringLength := default 2147483647 maxStringLength in
  value ← get req name;
  let list := Js.split (ascii_of_nat 44) value in
  if Z.of_nat (length list) <? minListCount then
    Throw (apiError ERR_ARGUMENT
      ("The comma-separated list " +:+ quoted name +:+ " must have at least "
       +:+ pretty minListCount +:+ " item(s)."))
  else if maxListCount <? Z.of_nat (length list) then
    Throw (apiError ERR_ARGUMENT
      ("The comma-separated list " +:+ quoted name +:+ " must have at most  "
       +:+ pretty maxListCount +:+ " item(s)."))
  else if negb (forallb (fun x => minStringLength <=? Js.length x) list) then
    Throw (apiError ERR_ARGUMENT
      ("Each item in the comma-separated list " +:+ quoted name
       +:+ " must be at least " +:+ pretty minStringLength
       +:+ " character(s) long."))
  else if negb (forallb (fun x => Js.length x <=? maxStringLength) list) then
    Throw (apiError ERR_ARGUMENT
      ("Each item in the comma-separated list " +:+ quoted name
       +:+ " must be at most " +:+ pretty maxStringLength
       +:+ " character(s) long."))
  else Ok list.

(** The names an object inherits from [Object.prototype]: for them
    [name in obj] holds on every request. *)
Definition Object_prototype_names : list string :=
  ["constructor"; "toString"; "toLocaleString"; "valueOf"; "hasOwnProperty";
   "isPrototypeOf"; "propertyIsEnumerable"; "__defineGetter__";
   "__defineSetter__"; "__lookupGetter__"; "__lookupSetter__"; "__proto__"].

Definition is_inherited (name : string) : bool :=
  existsb (String.eqb name) Object_prototype_names.

Definition is_argument_error {A} (r : Result A) : Prop :=
  exists msg, r = Throw (apiError ERR_ARGUMENT msg).

End QueryParser.

(** ** Shared data types *)

(** [spec.ModerationFlag], with the members [getModerationFlag] names. *)
Inductive ModerationFlag : Type :=
| OnTopic | NotWorkSafe | Stupid | PoliticalReligious | Tangent | Informative | Nuked.

#[global] Instance ModerationFlag_eq_dec : EqDecision ModerationFlag.
Proof. solve_decision. Defined.

(** [spec.MarkedPostType] and [spec.Mailbox], with the members the parser
    names. *)
Inductive MarkedPostType : Type := Unmarked | Pinned | Collapsed.

Inductive Mailbox : Type := Inbox | Sent.

(** The getters of [QueryParser.ts] that return an enumeration member. *)
Module QueryParserEnums.
Import QueryParser.

Definition getMarkedPostType (req : Request) (name : string) : Result MarkedPostType :=
  value ← getString req name None None;
  if String.eqb value "unmarked" then Ok Unmarked
  else if String.eqb value "pinned" then Ok Pinned
  else if String.eqb value "collapsed" then Ok Collapsed
  else Throw (apiError ERR_ARGUMENT
         ("The value for parameter " +:+ quoted name
          +:+ " must be: unmarked, pinned, or collapsed.")).

Definition getMailbox (req : Request) (name : string) : Result Mailbox :=
  value ← getString req name None None;
  if String.eqb value "inbox" then Ok Inbox
  else if String.eqb value "sent" then Ok Sent
  else Throw (apiError ERR_ARGUMENT
         ("The value for parameter " +:+ quoted name
          +:+ " must be: inbox or sent.")).

(** The [switch] of [getModerationFlag] on the parameter's text. *)
Definition moderationFlag_of_text (value : string) : option ModerationFlag :=
  if String.eqb value "ontopic" then Some OnTopic
  else if String.eqb value "nws" then Some NotWorkSafe
  else if String.eqb value "stupid" then Some Stupid
  else if String.eqb value "political" then Some PoliticalReligious
  else if String.eqb value "tangent" then Some Tangent
  else if String.eqb value "informative" then Some Informative
  else if String.eqb value "nuked" then Some Nuked
  else None.

Definition getModerationFlag (req : Request) (name : string) : Result ModerationFlag :=
  value ← getString req name None None;
  match moderationFlag_of_text value with
  | Some flag => Ok flag
  | None =>
      Throw (apiError ERR_ARGUMENT
        ("The value for parameter " +:+ quoted name
         +:+ " must be: ontopic, nws, stupid, political, tangent, informative, or nuked."))
  end.

Definition getOptionalModerationFlag (req : Request) (name : string)
    (defaultValue : ModerationFlag) : Result ModerationFlag :=
  if has req name then getModerationFlag req name else Ok defaultValue.

(** The texts under which the getters accept each member. *)
Definition text_of_markedPostType (m : MarkedPostType) : string :=
  match m with
  | Unmarked => "unmarked"
  | Pinned => "pinned"
  | Collapsed => "collapsed"
  end.

Definition text_of_mailbox (m : Mailbox) : string :=
  match m with
  | Inbox => "inbox"
  | Sent => "sent"
  end.

(** The text under which [getModerationFlag] accepts a flag. *)
Definition text_of_moderationFlag (flag : ModerationFlag) : string :=
  match flag with
  | OnTopic => "ontopic"
  | NotWorkSafe => "nws"
  | Stupid => "stupid"
  | PoliticalReligious => "political"
  | Tangent => "tangent"
  | Informative => "informative"
  | Nuked => "nuked"
  end.

End QueryParserEnums.

(** Modelled from the spec: the [Post] type of [spec/index], which is not
    among the sources.  Section 3 gives its fields; the set of moderation
    flags is kept as a list, read through [has_flag]. *)
Record Post : Type := {
  id : Z;
  threadId : Z;
  parentId : option Z;
  authorUsername : string;
  postBody : string;
  postedAt : Z;
  moderationFlags : list ModerationFlag
}.

Definition has_flag (f : ModerationFlag) (p : Post) : bool :=
  bool_decide (f ∈ moderationFlags p).

(** An event as the [/v2/waitForEvent] route reads it: [eventId] is the
    identifier that section 3 of the spec calls [id]. *)
Record Event : Type := {
  eventId : Z;
  kind : string;
  payload : string
}.

(** Modelled from the spec: the [Dictionary] collection of
    [collections/index], which is not among the sources.  It is taken as a
    finite map; [fromArray] stores the items in array order under
    [keyFunc], [lookup] with a [null] default gives [None] for [null]. *)
Module Dictionary.
Section Dict.
Context {T K V : Type} `{Countable K}.

Definition fromArray (array : list T) (keyFunc : T -> K) (valueFunc : T -> V)
  : gmap K V :=
  foldl (fun dict x => <[keyFunc x := valueFunc x]> dict) ∅ array.

Definition lookup_or_null (dict : gmap K V) (key : K) : option V := dict !! key.

Definition keys (dict : gmap K V) : list K := (map_to_list dict).*1.

Definition values (dict : gmap K V) : list V := (map_to_list dict).*2.
End Dict.

(** [dict.set(key, value)]. *)
Definition set {K V : Type} `{Countable K} (dict : gmap K V) (key : K) (value : V)
  : gmap K V :=
  <[key := value]> dict.
End Dictionary.

(** ** Route [/v2/clientData/setCategoryFilters] *)

Module SetCategoryFilters.
Import QueryParser.

(** [filters.push(flag)] when the parsed boolean holds. *)
Definition push_if (b : bool) (flag : ModerationFlag) (filters : list ModerationFlag)
  : list ModerationFlag :=
  if b then filters ++ [flag] else filters.

(** Lines 25 to 39: the parsing, up to the arguments handed to the
    connector. *)
Definition connector_arguments (req : Request) : Result (string * list ModerationFlag) :=
  username ← getString req "username" (Some 1) (Some 50);
  let filters := [] in
  nws ← getBoolean req "nws";
  let filters := push_if nws NotWorkSafe filters in
  stupid ← getBoolean req "stupid";
  let filters := push_if stupid Stupid filters in
  political ← getBoolean req "political";
  let filters := push_if political PoliticalReligious filters in
  tangent ← getBoolean req "tangent";
  let filters := push_if tangent Tangent filters in
  informative ← getBoolean req "informative";
  let filters := push_if informative Informative filters in
  Ok (username, filters).

Section Route.
(** The client data connector is not among the sources: its store and
    its [setModerationFlagFilters] are taken as given. *)
Context {ClientData : Type}.
Variable setModerationFlagFilters :
  string -> list ModerationFlag -> ClientData -> Result unit * ClientData.

(** The route: the response (or the error thrown) and the connector's
    store afterwards. *)
Definition route (req : Request) (store : ClientData) : Result string * ClientData :=
  match connector_arguments req with
  | Throw e => (Throw e, store)
  | Ok (username, filters) =>
      match setModerationFlagFilters username filters store with
      | (Ok _, store') => (Ok "success", store')
      | (Throw e, store') => (Throw e, store')
      end
  end.
End Route.

Definition the_five : list string :=
  ["nws"; "stupid"; "political"; "tangent"; "informative"].

Definition fixed_order : list ModerationFlag :=
  [NotWorkSafe; Stupid; PoliticalReligious; Tangent; Informative].

(** A connector that records the last filters it was given. *)
Definition recording_connector (username : string) (filters : list ModerationFlag)
    (store : list ModerationFlag) : Result unit * list ModerationFlag :=
  (Ok (), filters).

Definition full_request : Request :=
  {| method := "POST"; query := ∅;
     body := list_to_map
               [("username", "alice"); ("nws", "true"); ("stupid", "false");
                ("political", "true"); ("tangent", "false");
                ("informative", "true")] |}.

Definition request_without_tangent : Request :=
  {| method := "POST"; query := ∅;
     body := list_to_map
               [("username", "alice"); ("nws", "true"); ("stupid", "false");
                ("political", "true"); ("informative", "true")] |}.

End SetCategoryFilters.

(** ** Route [/v2/waitForEvent] *)

Module WaitForEventRoute.
Import QueryParser.

Record Response : Type := { lastEventId : number; events : list Event }.

(** [events[events.length - 1].eventId], when there is a last element. *)
Definition last_eventId (events : list Event) : option Z :=
  eventId <$> last events.

(** Lines 28 to 32: the response built from the resolved events. *)
Definition respond (lastEventId : number) (events : list Event) : Response :=
  if 0 <? Z.of_nat (length events) then
    {| lastEventId := from_option Num lastEventId (last_eventId events);
       events := events |}
  else
    {| lastEventId := lastEventId; events := events |}.

Section Route.
(** The dispatcher is not among the sources: its state and the events
    its [waitForEvent] eventually resolves with are taken as given. *)
Context {Dispatcher : Type}.
Variable dispatcher_waitForEvent : number -> Dispatcher -> list Event * Dispatcher.

Definition route (req : Request) (d : Dispatcher) : Result Response * Dispatcher :=
  match getInteger req "lastEventId" None None with
  | Throw e => (Throw e, d)
  | Ok lastEventId =>
      let '(events, d') := dispatcher_waitForEvent lastEventId d in
      (Ok (respond lastEventId events), d')
  end.
End Route.

(** The decimal reading of a digit string. *)
Definition decimal_value (s : string) : Z := fst (Js.digits_prefix 10 0 0%nat s).

(** A cursor parameter that is not acceptable: absent, or not a run of
    one or more decimal digits (a negative number starts with a sign), or
    a number above 2147483647. *)
Definition invalid_cursor (req : Request) : Prop :=
  match params req !! "lastEventId" with
  | None => True
  | Some v => Js.integerRegEx_test v = false \/ 2147483647 < decimal_value v
  end.

(** A dispatcher that counts the calls it receives and resolves with one
    event past the cursor. *)
Definition counting_dispatcher (cursor : number) (calls : nat) : list Event * nat :=
  match cursor with
  | Num c => ([{| eventId := c + 1; kind := "post"; payload := "p" |}], S calls)
  | NaN => ([], S calls)
  end.

Definition request_with_cursor (text : string) : Request :=
  {| method := "GET"; query := {[ "lastEventId" := text ]}; body := ∅ |}.

End WaitForEventRoute.

(** ** Route [/v2/getPost] *)

Module GetPostRoute.
Import QueryParser.

(** Line 28. *)
Definition parse_ids (req : Request) : Result (list number) :=
  getIntegerList req "id" (Some 1) (Some 50) (Some 1) None.

(** [postsById.lookup(x, null)] for a requested number: post ids are
    integers, so [NaN] names no post. *)
Definition lookup_post (postsById : gmap Z Post) (x : number) : option Post :=
  match x with
  | Num z => Dictionary.lookup_or_null postsById z
  | NaN => None
  end.

Section Route.
(** The thread connector, [api.removeNukedSubthreads] and
    [spec.postToHtml] are not among the sources and are taken as given;
    by section 6 of the spec the post store omits unknown ids and never
    fails. *)
Context {HtmlPost : Type}.
Variable getThreads : list number -> list Post.
Variable removeNukedSubthreads : list Post -> list Post.
Variable postToHtml : Post -> HtmlPost.

(** Lines 29 to 36: the posts found for the requested ids, in the
    order of [ids], the [null] lookups filtered out. *)
Definition found_posts (ids : list number) : list Post :=
  let threadPosts := getThreads ids in
  let unnukedThreadPosts := removeNukedSubthreads threadPosts in
  let postsById := Dictionary.fromArray unnukedThreadPosts id (fun x => x) in
  omap (fun x => x) (filter (fun x => x <> None) (map (lookup_post postsById) ids)).

(** Lines 29 to 39. *)
Definition read_path (ids : list number) : list HtmlPost :=
  map postToHtml (found_posts ids).

Definition route (req : Request) : Result (list HtmlPost) :=
  ids ← parse_ids req;
  Ok (read_path ids).
End Route.

Definition request_for_ids (text : string) : Request :=
  {| method := "GET"; query := {[ "id" := text ]}; body := ∅ |}.

(** Whether some post of [posts] has the requested number as its id. *)
Definition present (posts : list Post) (x : number) : bool :=
  existsb (fun p => bool_decide (Num (id p) = x)) posts.

End GetPostRoute.

(** ** [MemoryAccountConnector] *)

Module MemoryAccountConnector.

(** [spec.UserAccessLevel] is not among the sources; only its identity
    matters here. *)
Definition UserAccessLevel : Type := Z.

(** used to configure the in-memory list of users *)
Record MemoryUserAccount : Type := {
  username : string;
  password : string;
  registrationDate : Z;
  level : UserAccessLevel
}.

(** [spec.UserCredentials]. *)
Record UserCredentials : Type := {
  cred_username : string;
  cred_password : string;
  cred_level : UserAccessLevel
}.

(** The connector: its private [_accounts] dictionary. *)
Record t : Type := { _accounts : gmap string MemoryUserAccount }.

Definition constructor (initialAccounts : list MemoryUserAccount) : t :=
  {| _accounts := Dictionary.fromArray initialAccounts username (fun x => x) |}.

(** Resolves a token on successful login.  Resolves null if the
    username/password are wrong. *)
Definition tryLogin (this : t) (username password : string) : option UserCredentials :=
  match Dictionary.lookup_or_null (_accounts this) username with
  | None => None (* wrong username *)
  | Some account =>
      if String.eqb (MemoryAccountConnector.password account) password then
        Some {| cred_username := username; cred_password := password;
                cred_level := level account |}
      else None (* wrong password *)
  end.

(** Resolves true if the username exists (case insensitive), false if it
    does not. *)
Definition userExists (this : t) (username : string) : bool :=
  let usernameLower := Js.toLowerCase username in
  existsb (fun x => String.eqb (Js.toLowerCase x) usernameLower)
          (Dictionary.keys (_accounts this)).

(** Resolves a mapping of usernames to registration dates on success.  If
    usernames is not provided, then all users are returned.  If a provided
    username does not exist, then it is silently omitted from the
    results. *)
Definition getUserRegistrationDates (this : t) (usernames : option (list string))
  : gmap string Z :=
  match usernames with
  | None =>
      Dictionary.fromArray (Dictionary.values (_accounts this))
        MemoryAccountConnector.username registrationDate
  | Some usernames =>
      foldl (fun dict username =>
               match Dictionary.lookup_or_null (_accounts this) username with
               | Some account => Dictionary.set dict username (registrationDate account)
               | None => dict
               end) ∅ usernames
  end.

(** Resolves true if the username exists and the user is banned.  Resolves
    false otherwise. *)
Definition isUserBanned (this : t) (username : string) : bool := false.

(** An account held by the connector. *)
Definition stored (this : t) (a : MemoryUserAccount) : Prop :=
  exists k, _accounts this !! k = Some a.

(** Equality of two characters up to the case of a letter, written
    without [toLowerCase]: equal, or one is a capital and the other is the
    small letter 32 code units above it. *)
Definition is_capital (c : ascii) : bool :=
  let n := nat_of_ascii c in
  (((65 <=? n) && (n <=? 90)) || ((192 <=? n) && (n <=? 222) && negb (n =? 215)))%nat.

Definition same_letter (c d : ascii) : Prop :=
  c = d
  \/ (is_capital c = true /\ nat_of_ascii d = (nat_of_ascii c + 32)%nat)
  \/ (is_capital d = true /\ nat_of_ascii c = (nat_of_ascii d + 32)%nat).

(** Case-insensitive equality of two strings: the same length and the
    same letters position by position. *)
Fixpoint equal_ignoring_case (s t : string) : Prop :=
  match s, t with
  | EmptyString, EmptyString => True
  | String c s', String d t' => same_letter c d /\ equal_ignoring_case s' t'
  | _, _ => False
  end.

Definition account_Bob : MemoryUserAccount :=
  {| username := "Bob"; password := "pw"; registrationDate := 0; level := 1 |}.

End MemoryAccountConnector.

(** ** Event log *)

(** Modelled from the spec: the event log owned by the dispatcher, which is
    not among the sources.  Section 4.1: [append] assigns [lastId + 1],
    appends, and evicts the oldest entry if over capacity; [eventsSince]
    returns every retained event with a larger id, oldest first;
    [latestId] is the high-water mark, 0 if empty. *)
Module EventLog.

Record t : Type := {
  capacity : nat;          (* the fixed maximum length L *)
  entries : list Event     (* oldest first *)
}.

Definition empty (L : nat) : t := {| capacity := L; entries := [] |}.

Definition latestId (log : t) : Z :=
  match last (entries log) with
  | Some e => eventId e
  | None => 0
  end.

Definition push (e : Event) (log : t) : t :=
  {| capacity := capacity log; entries := entries log ++ [e] |}.

(** Evict the oldest entry if over capacity. *)
Definition evict (log : t) : t :=
  if (capacity log <? length (entries log))%nat
  then {| capacity := capacity log; entries := tail (entries log) |}
  else log.

Definition append (kind payload : string) (log : t) : Event * t :=
  let e := {| eventId := latestId log + 1; kind := kind; payload := payload |} in
  (e, evict (push e log)).

Definition eventsSince (cursor : Z) (log : t) : list Event :=
  filter (fun e => cursor < eventId e) (entries log).

(** Appending a batch, first item first. *)
Definition append_all (items : list (string * string)) (log : t) : t :=
  foldl (fun log item => (append item.1 item.2 log).2) log items.

(** The logs that exist: the empty log of a capacity, and what [append]
    makes of them. *)
Inductive reachable (L : nat) : t -> Prop :=
| reachable_empty : reachable L (empty L)
| reachable_append kind payload log :
    reachable L log -> reachable L (append kind payload log).2.

(** The ids [first, first + 1, ...], [n] of them. *)
Definition consecutive (first : Z) (n : nat) : list Z :=
  map (fun i => first + Z.of_nat i) (seq 0 n).

(** The invariant of a log of capacity [L]: at most [L] entries, whose ids
    are consecutive and end at [latestId]. *)
Definition invariant (L : nat) (log : t) : Prop :=
  capacity log = L
  /\ (length (entries log) <= L)%nat
  /\ map eventId (entries log)
     = consecutive (latestId log - Z.of_nat (length (entries log)) + 1)
                   (length (entries log)).

End EventLog.

(** ** Event dispatcher *)

(** Modelled from the spec: the dispatcher behind [server.dispatcher], which
    is not among the sources.  Section 4.2: [waitForEvent] checks the
    history first and registers a waiter only when it is empty; [publish]
    appends and resolves, in the same step, every waiter whose cursor is
    behind; a timeout resolves a waiter with no events.  Requests are
    interleaved, never run in parallel (section 5), so each operation is one
    step on the dispatcher's state. *)
Module Dispatcher.

Record Waiter : Type := {
  cursor : Z;
  handle : nat;            (* the completion handle *)
  registeredAt : Z
}.

Record t : Type := {
  log : EventLog.t;
  waiters : list Waiter;
  nextHandle : nat
}.

Definition create (L : nat) : t :=
  {| log := EventLog.empty L; waiters := []; nextHandle := 0 |}.

(** What the caller of [waitForEvent] gets at once: the events, or a
    suspension on a handle that a later step resolves. *)
Inductive Outcome : Type :=
| Returned (events : list Event)
| Suspended (handle : nat).

Definition waitForEvent (cursor timeout now : Z) (d : t) : Outcome * t :=
  match EventLog.eventsSince cursor (log d) with
  | (_ :: _) as events => (Returned events, d)
  | [] =>
      let w := {| cursor := cursor; handle := nextHandle d; registeredAt := now |} in
      (Suspended (nextHandle d),
       {| log := log d; waiters := waiters d ++ [w]; nextHandle := S (nextHandle d) |})
  end.

(** A resolution: the handle and the events its waiter is resolved with. *)
Definition Resolution : Type := nat * list Event.

Definition publish (kind payload : string) (d : t) : Event * list Resolution * t :=
  let '(e, log') := EventLog.append kind payload (log d) in
  let behind w := bool_decide (cursor w < EventLog.latestId log') in
  let woken := List.filter behind (waiters d) in
  let rest := List.filter (fun w => negb (behind w)) (waiters d) in
  (e,
   map (fun w => (handle w, EventLog.eventsSince (cursor w) log')) woken,
   {| log := log'; waiters := rest; nextHandle := nextHandle d |}).

(** The deadline of a waiter passes: it is resolved with no events and
    removed. *)
Definition expire (timeout now : Z) (d : t) : list Resolution * t :=
  let due w := bool_decide (registeredAt w + timeout <= now) in
  (map (fun w => (handle w, [])) (List.filter due (waiters d)),
   {| log := log d;
      waiters := List.filter (fun w => negb (due w)) (waiters d);
      nextHandle := nextHandle d |}).

End Dispatcher.

(** ** Tree assembler *)

(** Modelled from the spec: [api.removeNukedSubthreads], which is not among
    the sources.  Section 4.3: the posts are first indexed by [parentId] in
    one pass; the prune traversal then walks each tree parent first, keeps
    every post it visits and does not descend below a post that has the
    [Nuked] flag. *)
Module TreeAssembler.

(** One pass: the children of each parent id, in the order of the posts. *)
Definition index_by_parent (posts : list Post) : gmap Z (list Post) :=
  foldl (fun idx p =>
           match parentId p with
           | Some pid => <[pid := (default [] (idx !! pid) ++ [p])%list]> idx
           | None => idx
           end) ∅ posts.

Definition children (idx : gmap Z (list Post)) (p : Post) : list Post :=
  default [] (idx !! id p).

(** The roots of the forest: the posts without a parent among [posts]
    (the thread root, and the top of any orphaned fragment). *)
Definition is_root (posts : list Post) (p : Post) : bool :=
  match parentId p with
  | None => true
  | Some pid => negb (bool_decide (pid ∈ map id posts))
  end.

(** The walk from [p]; [fuel] bounds the depth, and the number of posts
    is enough of it. *)
Fixpoint walk (fuel : nat) (idx : gmap Z (list Post)) (p : Post) : list Post :=
  match fuel with
  | O => []
  | S fuel' =>
      p :: (if has_flag Nuked p then []
            else flat_map (walk fuel' idx) (children idx p))
  end.

Definition pruneNukedSubtrees (posts : list Post) : list Post :=
  let idx := index_by_parent posts in
  flat_map (walk (length posts) idx) (List.filter (is_root posts) posts).

(** [q] is the parent of [x], both among [posts]. *)
Definition is_parent (posts : list Post) (q x : Post) : Prop :=
  q ∈ posts /\ x ∈ posts /\ parentId x = Some (id q).

(** [a] is an ancestor of [x] other than [x] itself. *)
Inductive ancestor (posts : list Post) : Post -> Post -> Prop :=
| ancestor_parent a x : is_parent posts a x -> ancestor posts a x
| ancestor_step a q x :
    ancestor posts a q -> is_parent posts q x -> ancestor posts a x.

(** Parent-before-child order, with distinct ids: no later post has the id
    of an earlier one or is its parent, and no post is its own parent. *)
Fixpoint parent_before_child (posts : list Post) : bool :=
  match posts with
  | [] => true
  | p :: rest =>
      forallb (fun q => negb (bool_decide (id q = id p))
                        && negb (bool_decide (parentId p = Some (id q)))) rest
      && negb (bool_decide (parentId p = Some (id p)))
      && parent_before_child rest
  end.

(** The number of posts from the first post with id [i] to the end of
    the list: it decreases from a parent to its children and bounds the
    depth of the walk from that post. *)
Fixpoint height (posts : list Post) (i : Z) : nat :=
  match posts with
  | [] => O
  | p :: rest => if bool_decide (id p = i) then S (length rest) else height rest i
  end.

(** [x] is reached from [r] by steps from a parent to a child that leave
    no post with the [Nuked] flag behind. *)
Inductive kept_from (posts : list Post) (r : Post) : Post -> Prop :=
| kept_root : r ∈ posts -> kept_from posts r r
| kept_child q x :
    kept_from posts r q -> has_flag Nuked q = false ->
    is_parent posts q x -> kept_from posts r x.

Definition mkPost (i : Z) (parent : option Z) (flags : list ModerationFlag) : Post :=
  {| id := i; threadId := 1; parentId := parent; authorUsername := "user";
     postBody := "text"; postedAt := i; moderationFlags := flags |}.

(** The posts of the nuke propagation example of section 8. *)
Definition post_A : Post := mkPost 1 None [].
Definition post_B : Post := mkPost 2 (Some 1) [Nuked].
Definition post_C : Post := mkPost 3 (Some 2) [].
Definition post_D : Post := mkPost 4 (Some 1) [].

End TreeAssembler.

(** ** Sample collaborators *)

(** Stand-ins for the collaborators the routes are given, for running the
    routes on concrete requests. *)
Module Samples.

(** A thread connector that always answers with the four posts of the nuke
    example. *)
Definition getThreads (ids : list number) : list Post :=
  [TreeAssembler.post_A; TreeAssembler.post_B; TreeAssembler.post_C;
   TreeAssembler.post_D].

(** A rendering that keeps the id. *)
Definition postToHtml (p : Post) : Z := id p.

End Samples.

(** * Properties *)

(** ** The parser only throws argument errors *)

Module QueryParserFacts.
Import QueryParser.

Lemma get_missing req name :
  has req name = false -> is_argument_error (get req name).
Proof. intros H. unfold get. rewrite H. simpl. eexists; reflexivity. Qed.

Lemma get_Ok req name v :
  get req name = Ok v -> has req name = true /\ params req !! name = Some v.
Proof.
  unfold get, has. destruct (params req !! name) as [w|]; simpl.
  - destruct (String.eqb w EmptyString); simpl; [discriminate|].
    intros [= ->]. auto.
  - discriminate.
Qed.

Lemma get_throws req name e :
  get req name = Throw e -> code e = ERR_ARGUMENT.
Proof.
  unfold get. destruct (negb (has req name)).
  - intros [= <-]. reflexivity.
  - destruct (params req !! name); discriminate.
Qed.

Lemma bind_Throw {A B} (m : Result A) (k : A -> Result B) e :
  m ≫= k = Throw e -> m = Throw e \/ exists a, m = Ok a /\ k a = Throw e.
Proof. destruct m as [a|e']; simpl; [right; eauto | intros [= ->]; auto]. Qed.

Lemma bind_Ok {A B} (m : Result A) (k : A -> Result B) b :
  m ≫= k = Ok b -> exists a, m = Ok a /\ k a = Ok b.
Proof. destruct m as [a|e']; simpl; [eauto | discriminate]. Qed.

Lemma getBoolean_throws req name e :
  getBoolean req name = Throw e -> code e = ERR_ARGUMENT.
Proof.
  unfold getBoolean. intros H. apply bind_Throw in H as [H|(v & _ & H)].
  - eauto using get_throws.
  - destruct (String.eqb v "true"); [discriminate|].
    destruct (String.eqb v "false"); [discriminate|].
    injection H as <-. reflexivity.
Qed.

Lemma getBoolean_missing req name :
  has req name = false -> is_argument_error (getBoolean req name).
Proof.
  intros H. destruct (get_missing req name H) as [msg Hm].
  unfold getBoolean. rewrite Hm. eexists; reflexivity.
Qed.

Lemma getString_throws req name lo hi e :
  getString req name lo hi = Throw e -> code e = ERR_ARGUMENT.
Proof.
  unfold getString. intros H. apply bind_Throw in H as [H|(v & _ & H)].
  - eauto using get_throws.
  - destruct (_ <? _); [injection H as <-; reflexivity|].
    destruct (_ <? _); [injection H as <-; reflexivity|discriminate].
Qed.

Lemma getInteger_throws req name lo hi e :
  getInteger req name lo hi = Throw e -> code e = ERR_ARGUMENT.
Proof.
  unfold getInteger. intros H. apply bind_Throw in H as [H|(v & _ & H)].
  - eauto using getString_throws.
  - destruct (negb _); [injection H as <-; reflexivity|].
    destruct (Js.ltb _ _); [injection H as <-; reflexivity|].
    destruct (Js.gtb _ _); [injection H as <-; reflexivity|discriminate].
Qed.

Lemma getIntegerList_throws req name a b lo hi e :
  getIntegerList req name a b lo hi = Throw e -> code e = ERR_ARGUMENT.
Proof.
  unfold getIntegerList. intros H. apply bind_Throw in H as [H|(v & _ & H)].
  - eauto using get_throws.
  - repeat (match type of H with
            | (if ?c then _ else _) = _ => destruct c
            end; [injection H as <-; reflexivity|]).
    discriminate.
Qed.

Lemma throw_code_argument {A} (r : Result A) :
  (forall e, r = Throw e -> code e = ERR_ARGUMENT) ->
  is_Ok r = false -> is_argument_error r.
Proof.
  destruct r as [a|[c m]]; simpl; [discriminate|].
  intros H _. specialize (H _ eq_refl). simpl in H. subst. eexists; reflexivity.
Qed.

End QueryParserFacts.

(** ** Route [/v2/clientData/setCategoryFilters] *)

Module SetCategoryFiltersFacts.
Import QueryParser QueryParserFacts SetCategoryFilters.

Lemma getBoolean_Ok_has req name b :
  getBoolean req name = Ok b -> has req name = true.
Proof.
  unfold getBoolean. intros H. apply bind_Ok in H as (v & Hv & _).
  apply get_Ok in Hv. tauto.
Qed.

(** What a successful parse went through. *)
Lemma connector_arguments_Ok req username filters :
  connector_arguments req = Ok (username, filters) ->
  exists nws stupid political tangent informative,
    getBoolean req "nws" = Ok nws /\
    getBoolean req "stupid" = Ok stupid /\
    getBoolean req "political" = Ok political /\
    getBoolean req "tangent" = Ok tangent /\
    getBoolean req "informative" = Ok informative /\
    filters =
      push_if informative Informative
        (push_if tangent Tangent
           (push_if political PoliticalReligious
              (push_if stupid Stupid (push_if nws NotWorkSafe [])))).
Proof.
  unfold connector_arguments. intros H.
  apply bind_Ok in H as (u & _ & H).
  apply bind_Ok in H as (b1 & H1 & H).
  apply bind_Ok in H as (b2 & H2 & H).
  apply bind_Ok in H as (b3 & H3 & H).
  apply bind_Ok in H as (b4 & H4 & H).
  apply bind_Ok in H as (b5 & H5 & H).
  injection H as _ <-. exists b1, b2, b3, b4, b5. auto 10.
Qed.

Lemma connector_arguments_throws req e :
  connector_arguments req = Throw e -> code e = ERR_ARGUMENT.
Proof.
  unfold connector_arguments. intros H.
  apply bind_Throw in H as [H|(u & _ & H)]; [eauto using getString_throws|].
  do 5 (apply bind_Throw in H as [H|(? & _ & H)]; [eauto using getBoolean_throws|]).
  discriminate.
Qed.

Lemma filters_in_fixed_order (b1 b2 b3 b4 b5 : bool) :
  let filters :=
    push_if b5 Informative
      (push_if b4 Tangent
         (push_if b3 PoliticalReligious
            (push_if b2 Stupid (push_if b1 NotWorkSafe [])))) in
  sublist filters fixed_order /\ (Nuked ∉ filters) /\ (OnTopic ∉ filters).
Proof.
  destruct b1, b2, b3, b4, b5; simpl; unfold fixed_order;
    (split; [repeat constructor | split; intros Hin;
       repeat (apply elem_of_cons in Hin as [Hin|Hin]; [discriminate|]);
       inversion Hin]).
Qed.

(** C9.  When the route succeeds, the filter list handed to
    [setModerationFlagFilters] is a subsequence of [NotWorkSafe, Stupid,
    PoliticalReligious, Tangent, Informative] in that order and holds
    neither [Nuked] nor [OnTopic]; and a request that lacks one of the five
    boolean parameters is rejected with an argument error, the connector's
    store left as it was for any connector whatever. *)
Theorem setCategoryFilters_filters_and_missing
    {ClientData : Type}
    (setModerationFlagFilters :
       string -> list ModerationFlag -> ClientData -> Result unit * ClientData)
    (req : Request) (store : ClientData) :
  (forall resp store',
      route setModerationFlagFilters req store = (Ok resp, store') ->
      exists username filters,
        connector_arguments req = Ok (username, filters) /\
        setModerationFlagFilters username filters store = (Ok (), store') /\
        sublist filters fixed_order /\ (Nuked ∉ filters) /\ (OnTopic ∉ filters))
  /\
  ((exists name, name ∈ the_five /\ has req name = false) ->
   exists msg,
     route setModerationFlagFilters req store
     = (Throw (apiError ERR_ARGUMENT msg), store)).
Proof.
  split.
  - intros resp store' H. unfold route in H.
    destruct (connector_arguments req) as [[username filters]|e] eqn:Hargs;
      [|discriminate].
    destruct (setModerationFlagFilters username filters store) as [[[]|e] s] eqn:Hc;
      [|discriminate].
    injection H as _ <-. exists username, filters. split; [reflexivity|].
    split; [assumption|].
    apply connector_arguments_Ok in Hargs
      as (b1 & b2 & b3 & b4 & b5 & _ & _ & _ & _ & _ & ->).
    apply filters_in_fixed_order.
  - intros (name & Hname & Hmissing). unfold route.
    destruct (connector_arguments req) as [[username filters]|[c m]] eqn:Hargs.
    + exfalso.
      apply connector_arguments_Ok in Hargs
        as (b1 & b2 & b3 & b4 & b5 & H1 & H2 & H3 & H4 & H5 & _).
      apply getBoolean_Ok_has in H1, H2, H3, H4, H5.
      unfold the_five in Hname.
      repeat (apply elem_of_cons in Hname as [->|Hname]; [congruence|]).
      inversion Hname.
    + apply connector_arguments_throws in Hargs. simpl in Hargs. subst c.
      exists m. reflexivity.
Qed.

Lemma setCategoryFilters_filters_and_missing_witness :
  (exists username filters,
      connector_arguments full_request = Ok (username, filters) /\
      recording_connector username filters [] = (Ok (), [NotWorkSafe; PoliticalReligious; Informative]) /\
      sublist filters fixed_order /\ (Nuked ∉ filters) /\ (OnTopic ∉ filters))
  /\
  (exists msg,
      route recording_connector request_without_tangent [Nuked]
      = (Throw (apiError ERR_ARGUMENT msg), [Nuked])).
Proof.
  split.
  - apply (proj1 (setCategoryFilters_filters_and_missing
                    recording_connector full_request [])
             "success" [NotWorkSafe; PoliticalReligious; Informative]).
    vm_compute. reflexivity.
  - apply (proj2 (setCategoryFilters_filters_and_missing
                    recording_connector request_without_tangent [Nuked])).
    exists "tangent". split; [unfold the_five; set_solver | vm_compute; reflexivity].
Defined.

End SetCategoryFiltersFacts.

(** ** Route [/v2/waitForEvent] *)

Module WaitForEventRouteFacts.
Import QueryParser QueryParserFacts WaitForEventRoute.

Lemma getInteger_Ok req name n :
  getInteger req name None None = Ok n ->
  exists v, params req !! name = Some v /\ Js.integerRegEx_test v = true
            /\ n = Num (decimal_value v) /\ 0 <= decimal_value v <= 2147483647.
Proof.
  unfold getInteger. intros H. apply bind_Ok in H as (v & Hv & H).
  unfold getString in Hv. apply bind_Ok in Hv as (w & Hw & Hv).
  apply get_Ok in Hw as [_ Hw].
  destruct (_ <? _); [discriminate|]. destruct (_ <? _); [discriminate|].
  injection Hv as ->. exists v. split; [assumption|].
  destruct (Js.integerRegEx_test v) eqn:Hre; simpl in H; [|discriminate].
  split; [reflexivity|].
  unfold Js.parseFloat in H. rewrite Hre in H. fold (decimal_value v) in H.
  simpl in H.
  destruct (decimal_value v <? 0) eqn:Hlo; [discriminate|].
  destruct (2147483647 <? decimal_value v) eqn:Hhi; [discriminate|].
  injection H as <-. split; [reflexivity|]. lia.
Qed.

(** C4.  A request whose cursor parameter is invalid is rejected with an
    argument error before the dispatcher is reached: whatever the
    dispatcher's [waitForEvent] would do, its state is returned as it
    was. *)
Theorem waitForEvent_invalid_cursor_rejected
    {Dispatcher : Type}
    (dispatcher_waitForEvent : number -> Dispatcher -> list Event * Dispatcher)
    (req : Request) (d : Dispatcher) :
  invalid_cursor req ->
  exists msg,
    route dispatcher_waitForEvent req d = (Throw (apiError ERR_ARGUMENT msg), d).
Proof.
  intros Hinv. unfold route.
  destruct (getInteger req "lastEventId" None None) as [n|[c m]] eqn:Hget.
  - exfalso. apply getInteger_Ok in Hget as (v & Hv & Hre & _ & Hrange).
    unfold invalid_cursor in Hinv. rewrite Hv in Hinv.
    destruct Hinv as [Hinv|Hinv]; [congruence | lia].
  - apply getInteger_throws in Hget. simpl in Hget. subst c.
    exists m. reflexivity.
Qed.

Lemma waitForEvent_invalid_cursor_rejected_witness :
  invalid_cursor (request_with_cursor "-1") /\
  exists msg,
    route counting_dispatcher (request_with_cursor "-1") 0%nat
    = (Throw (apiError ERR_ARGUMENT msg), 0%nat).
Proof.
  assert (H : invalid_cursor (request_with_cursor "-1")).
  { vm_compute. left. reflexivity. }
  split; [exact H|].
  exact (waitForEvent_invalid_cursor_rejected
           counting_dispatcher (request_with_cursor "-1") 0%nat H).
Defined.

Lemma respond_lastEventId cursor evs :
  events (respond cursor evs) = evs /\
  match last evs with
  | Some e => lastEventId (respond cursor evs) = Num (eventId e)
  | None => lastEventId (respond cursor evs) = cursor
  end.
Proof.
  unfold respond, last_eventId.
  destruct (last evs) as [e|] eqn:Hlast.
  - destruct evs as [|x evs]; [discriminate|].
    change (0 <? Z.of_nat (length (x :: evs))) with true. cbv iota.
    split; reflexivity.
  - apply last_None in Hlast. subst evs. split; reflexivity.
Qed.

(** C8.  In every response of the route, a non-empty event sequence comes
    with the [eventId] of its final element as [lastEventId], and an empty
    one with the cursor the caller supplied. *)
Theorem waitForEvent_response_cursor
    {Dispatcher : Type}
    (dispatcher_waitForEvent : number -> Dispatcher -> list Event * Dispatcher)
    (req : Request) (d d' : Dispatcher) (resp : Response) :
  route dispatcher_waitForEvent req d = (Ok resp, d') ->
  exists supplied,
    getInteger req "lastEventId" None None = Ok supplied /\
    dispatcher_waitForEvent supplied d = (events resp, d') /\
    (events resp <> [] ->
     exists final, last (events resp) = Some final
                   /\ lastEventId resp = Num (eventId final)) /\
    (events resp = [] -> lastEventId resp = supplied).
Proof.
  unfold route. intros H.
  destruct (getInteger req "lastEventId" None None) as [n|e] eqn:Hget;
    [|discriminate].
  destruct (dispatcher_waitForEvent n d) as [evs d1] eqn:Hwait.
  injection H as <- <-. exists n. split; [reflexivity|].
  destruct (respond_lastEventId n evs) as [Hev Hlast]. rewrite Hev.
  split; [exact Hwait|]. split.
  - intros Hne. destruct (last evs) as [e|] eqn:Hl.
    + exists e. auto.
    + apply last_None in Hl. contradiction.
  - intros ->. exact Hlast.
Qed.

Lemma waitForEvent_response_cursor_witness :
  route counting_dispatcher (request_with_cursor "41") 0%nat
  = (Ok {| lastEventId := Num 42;
           events := [{| eventId := 42; kind := "post"; payload := "p" |}] |},
     1%nat)
  /\ exists supplied,
    getInteger (request_with_cursor "41") "lastEventId" None None = Ok supplied /\
    counting_dispatcher supplied 0%nat
    = ([{| eventId := 42; kind := "post"; payload := "p" |}], 1%nat) /\
    ([{| eventId := 42; kind := "post"; payload := "p" |}] <> [] ->
     exists final,
       last [{| eventId := 42; kind := "post"; payload := "p" |}] = Some final
       /\ Num 42 = Num (eventId final)) /\
    ([{| eventId := 42; kind := "post"; payload := "p" |}] = [] -> Num 42 = supplied).
Proof.
  assert (H : route counting_dispatcher (request_with_cursor "41") 0%nat
              = (Ok {| lastEventId := Num 42;
                       events := [{| eventId := 42; kind := "post"; payload := "p" |}] |},
                 1%nat)).
  { vm_compute. reflexivity. }
  split; [exact H|].
  exact (waitForEvent_response_cursor counting_dispatcher
           (request_with_cursor "41") 0%nat 1%nat _ H).
Defined.

End WaitForEventRouteFacts.

(** ** The [Dictionary] model *)

Module DictionaryFacts.
Import Dictionary.

Section Dict.
Context {T K V : Type} `{Countable K}.
Variables (keyFunc : T -> K) (valueFunc : T -> V).

Lemma fromArray_snoc (array : list T) (x : T) :
  fromArray (array ++ [x]) keyFunc valueFunc
  = <[keyFunc x := valueFunc x]> (fromArray array keyFunc valueFunc).
Proof. unfold fromArray. rewrite foldl_app. reflexivity. Qed.

Lemma lookup_fromArray_Some (array : list T) (k : K) (v : V) :
  fromArray array keyFunc valueFunc !! k = Some v ->
  exists x, x ∈ array /\ keyFunc x = k /\ valueFunc x = v.
Proof.
  induction array as [|x array IH] using rev_ind.
  - unfold fromArray. simpl. rewrite lookup_empty. discriminate.
  - rewrite fromArray_snoc. destruct (decide (keyFunc x = k)) as [Heq|Hne].
    + rewrite <- Heq, lookup_insert_eq. intros [= <-].
      exists x. split; [apply elem_of_app; right; constructor | auto].
    + rewrite lookup_insert_ne by assumption. intros Hl.
      destruct (IH Hl) as (y & Hy & Hk & Hv).
      exists y. split; [apply elem_of_app; auto | auto].
Qed.

Lemma lookup_fromArray_None (array : list T) (k : K) :
  fromArray array keyFunc valueFunc !! k = None <->
  forall x, x ∈ array -> keyFunc x <> k.
Proof.
  induction array as [|x array IH] using rev_ind.
  - unfold fromArray. simpl. rewrite lookup_empty.
    split; [intros _ x Hx; inversion Hx | reflexivity].
  - rewrite fromArray_snoc. destruct (decide (keyFunc x = k)) as [Heq|Hne].
    + rewrite <- Heq, lookup_insert_eq. split; [discriminate|].
      intros Hall. exfalso. apply (Hall x); [|reflexivity].
      apply elem_of_app; right; constructor.
    + rewrite lookup_insert_ne by assumption. rewrite IH. split.
      * intros Hall y Hy. apply elem_of_app in Hy as [Hy|Hy]; [auto|].
        apply list_elem_of_singleton in Hy. subst y. assumption.
      * intros Hall y Hy. apply Hall, elem_of_app. auto.
Qed.

Lemma elem_of_keys (dict : gmap K V) (k : K) :
  k ∈ keys dict <-> exists v, dict !! k = Some v.
Proof.
  unfold keys. rewrite list_elem_of_fmap. split.
  - intros ([k' v] & -> & Hin). apply elem_of_map_to_list in Hin. eauto.
  - intros [v Hv]. exists (k, v). split; [reflexivity|].
    apply elem_of_map_to_list. assumption.
Qed.
End Dict.
End DictionaryFacts.

(** ** Route [/v2/getPost] *)

Module GetPostRouteFacts.
Import QueryParser QueryParserFacts GetPostRoute DictionaryFacts.

(** A radix of 1 is outside 2..36. *)
Lemma parseInt_radix_1 (s : string) : Js.parseInt s 1 = NaN.
Proof.
  unfold Js.parseInt.
  destruct (match Js.trim_start s with
            | EmptyString => _ | String _ _ => _ end) as [sign S1].
  reflexivity.
Qed.

(** The second item of a list is parsed with radix 1. *)
Lemma lodash_map_parseInt_second x y rest :
  exists n others, lodash_map_parseInt (x :: y :: rest) = n :: NaN :: others.
Proof.
  unfold lodash_map_parseInt. simpl.
  change (Z.of_nat (S 0)) with 1. rewrite parseInt_radix_1. eauto.
Qed.

(** Every list of two or more items is rejected, whatever the items and the
    bounds. *)
Lemma getIntegerList_two_items_rejected req name a b lo hi v x y rest :
  get req name = Ok v ->
  Js.split (ascii_of_nat 44) v = x :: y :: rest ->
  is_argument_error (getIntegerList req name a b lo hi).
Proof.
  intros Hget Hsplit.
  apply throw_code_argument; [apply getIntegerList_throws|].
  unfold getIntegerList. rewrite Hget. simpl. rewrite Hsplit.
  destruct (lodash_map_parseInt_second x y rest) as (n & others & ->).
  repeat (match goal with
          | |- is_Ok (if ?c then _ else _) = false =>
              destruct c eqn:?; [reflexivity|]
          end).
  exfalso.
  match goal with
  | Hc : negb (forallb (fun x => Js.geb x _) _) = false |- _ =>
      simpl in Hc; rewrite andb_false_r in Hc; discriminate
  end.
Qed.

(** C6.  The request [id=10,11], a list of two decimal ids that are both
    at least 1, is rejected as a whole with an argument error: the second
    item is parsed with its index 1 as the radix and gives [NaN], and the
    check [x >= min] fails on it. *)
Theorem getPost_two_ids_rejected :
  lodash_map_parseInt ["10"; "11"] = [Num 10; NaN]
  /\ parse_ids (request_for_ids "10,11")
     = Throw (apiError ERR_ARGUMENT
                ("Each item in the comma-separated list " +:+ quoted "id"
                 +:+ " must be greater than or equal to 1."))
  /\ forall (HtmlPost : Type) (getThreads : list number -> list Post)
        (removeNukedSubthreads : list Post -> list Post)
        (postToHtml : Post -> HtmlPost),
      is_Ok (route getThreads removeNukedSubthreads postToHtml
               (request_for_ids "10,11")) = false.
Proof.
  assert (H : parse_ids (request_for_ids "10,11")
              = Throw (apiError ERR_ARGUMENT
                         ("Each item in the comma-separated list " +:+ quoted "id"
                          +:+ " must be greater than or equal to 1."))).
  { vm_compute. reflexivity. }
  split; [vm_compute; reflexivity|]. split; [exact H|].
  intros. unfold route. rewrite H. reflexivity.
Qed.

(** A single id is parsed with radix 0, that is in decimal. *)
Example getPost_single_id :
  parse_ids (request_for_ids "10") = Ok [Num 10].
Proof. vm_compute. reflexivity. Qed.

Section ReadPath.
Context {HtmlPost : Type}.
Variable getThreads : list number -> list Post.
Variable removeNukedSubthreads : list Post -> list Post.
Variable postToHtml : Post -> HtmlPost.

Lemma present_false posts x :
  present posts x = false <-> forall p, p ∈ posts -> Num (id p) <> x.
Proof.
  unfold present. induction posts as [|q posts IH]; simpl.
  - split; [intros _ p Hp; inversion Hp | reflexivity].
  - rewrite orb_false_iff, IH, bool_decide_eq_false. split.
    + intros [Hq Hall] p Hp. apply elem_of_cons in Hp as [->|Hp]; auto.
    + intros Hall. split; [apply Hall; constructor|].
      intros p Hp. apply Hall. constructor. assumption.
Qed.

Lemma lookup_post_Some posts x p :
  lookup_post (Dictionary.fromArray posts id (fun y => y)) x = Some p ->
  p ∈ posts /\ Num (id p) = x.
Proof.
  destruct x as [|z]; simpl; [discriminate|].
  unfold Dictionary.lookup_or_null. intros Hl.
  apply lookup_fromArray_Some in Hl as (y & Hy & Hk & ->).
  split; [assumption | congruence].
Qed.

Lemma lookup_post_None posts x :
  lookup_post (Dictionary.fromArray posts id (fun y => y)) x = None ->
  present posts x = false.
Proof.
  intros Hl. apply present_false. intros p Hp Heq. subst x.
  simpl in Hl. unfold Dictionary.lookup_or_null in Hl.
  rewrite lookup_fromArray_None in Hl. apply (Hl p Hp). reflexivity.
Qed.

(** The lookups of the requested ids, with the [null]s filtered out. *)
Lemma found_in_order posts ids :
  let postsById := Dictionary.fromArray posts id (fun y => y) in
  let found :=
    omap (fun x => x)
         (filter (fun x => x <> None) (map (lookup_post postsById) ids)) in
  map (fun p => Num (id p)) found = List.filter (present posts) ids
  /\ forall p, p ∈ found -> p ∈ posts.
Proof.
  induction ids as [|x ids [IHo IHm]]; simpl.
  - split; [reflexivity | intros p Hp; inversion Hp].
  - rewrite filter_cons.
    destruct (lookup_post _ x) as [p|] eqn:Hl.
    + apply lookup_post_Some in Hl as [Hin Hid].
      destruct (decide (Some p <> None)) as [_|Hn]; [|exfalso; apply Hn; discriminate].
      simpl. assert (Hp : present posts x = true).
      { destruct (present posts x) eqn:Hp; [reflexivity|].
        rewrite present_false in Hp. exfalso. apply (Hp p Hin Hid). }
      rewrite Hp. split.
      * rewrite Hid. f_equal. exact IHo.
      * intros q Hq. apply elem_of_cons in Hq as [->|Hq]; auto.
    + apply lookup_post_None in Hl. rewrite Hl.
      destruct (decide (@None Post <> None)) as [Hn|_]; [exfalso; apply Hn; reflexivity|].
      split; assumption.
Qed.

(** Lines 29 to 39 on a list of ids: the ids of the posts found are the
    given ids, in their order, with those dropped that no post of the
    pruned threads carries, and nothing is raised for a dropped id. *)
Theorem getPost_read_path_order (ids : list number) :
  let unnuked := removeNukedSubthreads (getThreads ids) in
  let found := found_posts getThreads removeNukedSubthreads ids in
  read_path getThreads removeNukedSubthreads postToHtml ids = map postToHtml found
  /\ map (fun p => Num (id p)) found = List.filter (present unnuked) ids
  /\ (forall p, p ∈ found -> p ∈ unnuked)
  /\ (forall x, x ∈ ids -> present unnuked x = false ->
                Forall (fun p => Num (id p) <> x) found).
Proof.
  intros unnuked found.
  destruct (found_in_order unnuked ids) as [Ho Hm].
  split; [reflexivity|]. split; [exact Ho|]. split; [exact Hm|].
  intros x _ Hx. apply Forall_forall. intros p Hp.
  rewrite present_false in Hx. apply Hx, Hm, Hp.
Qed.
End ReadPath.

End GetPostRouteFacts.

(** ** What a request for several posts gets *)

Module GetPostRouteOrder.
Import QueryParser GetPostRoute.

(** C5.  A request for the posts 1 and 4, both of which the pruned threads
    hold, is not answered with these posts in the requested order: lines 29
    to 39 would give them, in that order, for the ids 1 and 4, but the
    route never reaches them, because the parsing of the second id fails
    and the whole request is rejected with an argument error, whatever the
    thread connector holds.  A request for one id is answered, and with no
    post and no error when no post carries the id. *)
Theorem getPost_two_requested_ids_not_answered :
  read_path Samples.getThreads TreeAssembler.pruneNukedSubtrees Samples.postToHtml
    [Num 1; Num 4] = [1; 4]
  /\ parse_ids (request_for_ids "1,4")
     = Throw (apiError ERR_ARGUMENT
                ("Each item in the comma-separated list " +:+ quoted "id"
                 +:+ " must be greater than or equal to 1."))
  /\ (forall (HtmlPost : Type) (getThreads : list number -> list Post)
         (removeNukedSubthreads : list Post -> list Post)
         (postToHtml : Post -> HtmlPost),
        is_Ok (route getThreads removeNukedSubthreads postToHtml
                 (request_for_ids "1,4")) = false)
  /\ route Samples.getThreads TreeAssembler.pruneNukedSubtrees Samples.postToHtml
       (request_for_ids "4") = Ok [4]
  /\ route Samples.getThreads TreeAssembler.pruneNukedSubtrees Samples.postToHtml
       (request_for_ids "7") = Ok [].
Proof.
  assert (H : parse_ids (request_for_ids "1,4")
              = Throw (apiError ERR_ARGUMENT
                         ("Each item in the comma-separated list " +:+ quoted "id"
                          +:+ " must be greater than or equal to 1."))).
  { vm_compute. reflexivity. }
  split; [vm_compute; reflexivity|]. split; [exact H|]. split.
  - intros. unfold route. rewrite H. reflexivity.
  - split; vm_compute; reflexivity.
Qed.

End GetPostRouteOrder.

(** ** [MemoryAccountConnector] *)

Module MemoryAccountConnectorFacts.
Import MemoryAccountConnector DictionaryFacts.

Ltac nat_cases :=
  repeat match goal with
    | |- context [Nat.leb ?a ?b] => destruct (Nat.leb_spec a b)
    | |- context [Nat.eqb ?a ?b] => destruct (Nat.eqb_spec a b)
    | H : context [Nat.leb ?a ?b] |- _ => destruct (Nat.leb_spec a b)
    | H : context [Nat.eqb ?a ?b] |- _ => destruct (Nat.eqb_spec a b)
    end.

Lemma nat_of_char_toLowerCase (c : ascii) :
  nat_of_ascii (Js.char_toLowerCase c)
  = if is_capital c then (nat_of_ascii c + 32)%nat else nat_of_ascii c.
Proof.
  unfold Js.char_toLowerCase, is_capital.
  pose proof (nat_ascii_bounded c) as Hb.
  nat_cases; simpl; try reflexivity; try lia;
    apply nat_ascii_embedding; lia.
Qed.

Lemma nat_of_ascii_inj (c d : ascii) : nat_of_ascii c = nat_of_ascii d -> c = d.
Proof.
  intros H. rewrite <- (ascii_nat_embedding c), <- (ascii_nat_embedding d).
  congruence.
Qed.

Lemma same_letter_toLowerCase (c d : ascii) :
  same_letter c d <-> Js.char_toLowerCase c = Js.char_toLowerCase d.
Proof.
  split.
  - intros H. apply nat_of_ascii_inj. rewrite !nat_of_char_toLowerCase.
    destruct H as [->|[[Hc Hd]|[Hd Hc]]]; [reflexivity| |].
    + rewrite Hc. replace (is_capital d) with false; [auto|].
      unfold is_capital in *. rewrite Hd.
      pose proof (nat_ascii_bounded d). symmetry.
      nat_cases; simpl in *; try reflexivity; try discriminate; lia.
    + rewrite Hd. replace (is_capital c) with false; [auto|].
      unfold is_capital in *. rewrite Hc.
      pose proof (nat_ascii_bounded c). symmetry.
      nat_cases; simpl in *; try reflexivity; try discriminate; lia.
  - intros H. apply (f_equal nat_of_ascii) in H.
    rewrite !nat_of_char_toLowerCase in H. unfold same_letter.
    destruct (is_capital c) eqn:Hc, (is_capital d) eqn:Hd.
    + left. apply nat_of_ascii_inj. lia.
    + right; left. auto.
    + right; right. auto.
    + left. apply nat_of_ascii_inj. assumption.
Qed.

Lemma equal_ignoring_case_toLowerCase (s t : string) :
  equal_ignoring_case s t <-> Js.toLowerCase s = Js.toLowerCase t.
Proof.
  revert t. induction s as [|c s IH]; intros [|d t]; simpl;
    try (split; [tauto | discriminate]); [tauto|].
  rewrite same_letter_toLowerCase, IH. split.
  - intros [-> ->]. reflexivity.
  - intros [= -> ->]. auto.
Qed.

(** Every account sits under its own username. *)
Lemma constructor_key initialAccounts k a :
  _accounts (constructor initialAccounts) !! k = Some a ->
  a ∈ initialAccounts /\ username a = k.
Proof.
  simpl. intros Hl. apply lookup_fromArray_Some in Hl as (x & Hx & Hk & ->).
  auto.
Qed.

Lemma userExists_iff initialAccounts u :
  userExists (constructor initialAccounts) u = true <->
  exists a, stored (constructor initialAccounts) a
            /\ equal_ignoring_case (username a) u.
Proof.
  unfold userExists. rewrite existsb_exists. split.
  - intros (k & Hk & Heq). apply list_elem_of_In, elem_of_keys in Hk as [a Ha].
    exists a. split; [exists k; assumption|].
    apply constructor_key in Ha as [_ ->].
    apply equal_ignoring_case_toLowerCase, String.eqb_eq. assumption.
  - intros (a & [k Ha] & Heq). exists k. split.
    + apply list_elem_of_In, elem_of_keys. eauto.
    + apply constructor_key in Ha as [_ <-].
      apply String.eqb_eq, equal_ignoring_case_toLowerCase. assumption.
Qed.

Lemma tryLogin_iff initialAccounts u p :
  tryLogin (constructor initialAccounts) u p <> None <->
  exists a, stored (constructor initialAccounts) a
            /\ username a = u /\ password a = p.
Proof.
  unfold tryLogin, Dictionary.lookup_or_null. split.
  - destruct (_accounts (constructor initialAccounts) !! u) as [a|] eqn:Ha;
      [|intros H; contradiction].
    destruct (String.eqb (password a) p) eqn:Hp; [|intros H; contradiction].
    intros _. exists a. split; [exists u; assumption|].
    apply constructor_key in Ha as [_ Hu]. apply String.eqb_eq in Hp. auto.
  - intros (a & [k Ha] & Hu & Hp).
    pose proof (constructor_key _ _ _ Ha) as [_ Hk].
    assert (k = u) as -> by congruence.
    rewrite Ha. subst p. rewrite String.eqb_refl. discriminate.
Qed.

(** C10.  [userExists] resolves true exactly when a stored account has the
    username up to the case of its letters; [tryLogin] resolves
    credentials exactly when a stored account has the very username and
    the very password; so [userExists] can resolve true for a name under
    which [tryLogin] with the right password resolves null. *)
Theorem memory_accounts_case_mismatch :
  (forall initialAccounts u,
      userExists (constructor initialAccounts) u = true <->
      exists a, stored (constructor initialAccounts) a
                /\ equal_ignoring_case (username a) u)
  /\ (forall initialAccounts u p,
        tryLogin (constructor initialAccounts) u p <> None <->
        exists a, stored (constructor initialAccounts) a
                  /\ username a = u /\ password a = p)
  /\ (exists initialAccounts a u,
        stored (constructor initialAccounts) a
        /\ equal_ignoring_case (username a) u
        /\ userExists (constructor initialAccounts) u = true
        /\ tryLogin (constructor initialAccounts) u (password a) = None).
Proof.
  split; [exact userExists_iff|]. split; [exact tryLogin_iff|].
  exists [account_Bob], account_Bob, "bob".
  split; [exists "Bob"; vm_compute; reflexivity|].
  split; [apply equal_ignoring_case_toLowerCase; reflexivity|].
  split; vm_compute; reflexivity.
Qed.

End MemoryAccountConnectorFacts.

(** ** Event log *)

Module EventLogFacts.
Import EventLog.

Lemma consecutive_snoc first n :
  consecutive first (S n) = consecutive first n ++ [first + Z.of_nat n].
Proof. unfold consecutive. rewrite seq_S, map_app. reflexivity. Qed.

Lemma consecutive_cons first n :
  consecutive first (S n) = first :: consecutive (first + 1) n.
Proof.
  unfold consecutive. simpl. rewrite Z.add_0_r. f_equal.
  rewrite <- seq_shift, map_map. apply map_ext. intros i. lia.
Qed.

Lemma consecutive_length first n : length (consecutive first n) = n.
Proof. unfold consecutive. rewrite length_map, length_seq. reflexivity. Qed.

Lemma consecutive_lower_bound first n :
  Forall (fun i => first <= i) (consecutive first n).
Proof.
  unfold consecutive. apply Forall_forall. intros i Hi.
  apply list_elem_of_fmap in Hi as (k & -> & _). lia.
Qed.

Lemma consecutive_sorted first n : StronglySorted Z.lt (consecutive first n).
Proof.
  revert first. induction n as [|n IH]; intros first.
  - constructor.
  - rewrite consecutive_cons. constructor; [apply IH|].
    eapply Forall_impl; [apply consecutive_lower_bound|].
    simpl. intros. lia.
Qed.

Lemma latestId_push e log : latestId (push e log) = eventId e.
Proof. unfold latestId, push. simpl. rewrite last_snoc. reflexivity. Qed.

Lemma append_unfold kind payload log :
  append kind payload log
  = (let e := {| eventId := latestId log + 1; kind := kind; payload := payload |} in
     (e, evict (push e log))).
Proof. reflexivity. Qed.

(** Eviction takes the head and nothing else. *)
Lemma evict_entries log :
  entries (evict log)
  = if (capacity log <? length (entries log))%nat
    then tail (entries log) else entries log.
Proof. unfold evict. destruct (_ <? _)%nat; reflexivity. Qed.

Lemma evict_capacity log : capacity (evict log) = capacity log.
Proof. unfold evict. destruct (_ <? _)%nat; reflexivity. Qed.

(** With room for at least one event, eviction leaves the newest event in
    place. *)
Lemma latestId_evict log :
  (0 < capacity log)%nat -> latestId (evict log) = latestId log.
Proof.
  intros HL. unfold latestId. rewrite evict_entries.
  destruct (Nat.ltb_spec (capacity log) (length (entries log))) as [Hlt|]; [|reflexivity].
  destruct (entries log) as [|x [|y es]]; simpl in *; lia.
Qed.

Lemma invariant_empty L : invariant L (empty L).
Proof. repeat split. simpl. lia. Qed.

Lemma invariant_append L kind payload log :
  invariant L log -> invariant L (append kind payload log).2.
Proof.
  intros (Hcap & Hlen & Hids). rewrite append_unfold. cbv zeta. simpl snd.
  set (e := {| eventId := latestId log + 1; kind := kind; payload := payload |}).
  assert (Hpushed : map eventId (entries (push e log))
                    = consecutive (latestId log - Z.of_nat (length (entries log)) + 1)
                                  (S (length (entries log)))).
  { simpl. rewrite map_app, Hids, consecutive_snoc. simpl. do 2 f_equal. lia. }
  unfold invariant. rewrite evict_capacity. split; [exact Hcap|].
  unfold latestId at 1. rewrite evict_entries.
  change (capacity (push e log)) with (capacity log). rewrite Hcap.
  assert (Hpl : length (entries (push e log)) = S (length (entries log))).
  { simpl. rewrite length_app. simpl. lia. }
  rewrite Hpl.
  destruct (Nat.ltb_spec L (S (length (entries log)))) as [Hfull|Hroom].
  - (* at capacity: the head goes *)
    assert (Hn : length (entries log) = L) by lia.
    change (entries (push e log)) with (entries log ++ [e]) in *.
    destruct (entries log) as [|x es].
    + (* capacity 0: nothing is retained *)
      simpl in *. subst L. split; [lia|reflexivity].
    + simpl tail. simpl in Hn. split; [rewrite length_app; simpl; lia|].
      simpl in Hpushed. rewrite consecutive_cons in Hpushed.
      injection Hpushed as _ Hrest. rewrite Hrest.
      rewrite last_snoc, length_app. simpl. f_equal; lia.
  - split; [lia|]. rewrite Hpushed, Hpl.
    simpl entries. rewrite last_snoc. simpl. f_equal. lia.
Qed.

Lemma reachable_invariant L log : reachable L log -> invariant L log.
Proof.
  induction 1; [apply invariant_empty | apply invariant_append; assumption].
Qed.

Lemma invariant_sorted L log :
  invariant L log -> StronglySorted Z.lt (map eventId (entries log)).
Proof. intros (_ & _ & ->). apply consecutive_sorted. Qed.

Lemma filter_all {A} (P : A -> Prop) `{forall x, Decision (P x)} (l : list A) :
  Forall P l -> filter P l = l.
Proof.
  induction 1 as [|x l Hx _ IH]; [reflexivity|].
  rewrite filter_cons_True by assumption. f_equal. exact IH.
Qed.

(** In a list sorted by a key, the elements whose key exceeds a bound form
    a suffix. *)
Lemma sorted_filter_suffix {A} (key : A -> Z) (c : Z) (l : list A) :
  StronglySorted Z.lt (map key l) ->
  exists older,
    l = older ++ filter (fun e => c < key e) l
    /\ Forall (fun e => key e <= c) older.
Proof.
  induction l as [|x l IH]; intros Hs.
  - exists []. split; [reflexivity|constructor].
  - simpl in Hs. apply StronglySorted_inv in Hs as [Hs Hx].
    rewrite filter_cons. destruct (decide (c < key x)) as [Hc|Hc].
    + exists []. split; [|constructor]. simpl. f_equal.
      symmetry. apply filter_all.
      rewrite Forall_forall in Hx. apply Forall_forall. intros e He.
      assert (key x < key e); [|lia].
      apply Hx, list_elem_of_fmap. eauto.
    + destruct (IH Hs) as (older & Hl & Hold).
      exists (x :: older). split; [simpl; f_equal; exact Hl|].
      constructor; [lia|assumption].
Qed.

Lemma sorted_lt_NoDup (l : list Z) : StronglySorted Z.lt l -> NoDup l.
Proof.
  induction 1 as [|x l Hs IH Hx]; constructor; [|assumption].
  intros Hin. rewrite Forall_forall in Hx.
  apply Hx in Hin. lia.
Qed.

Lemma invariant_eventsSince_suffix L log c :
  invariant L log ->
  exists older,
    entries log = older ++ eventsSince c log
    /\ Forall (fun e => eventId e <= c) older.
Proof.
  intros Hinv. apply (sorted_filter_suffix eventId c).
  eapply invariant_sorted. eassumption.
Qed.

(** C3.  In a log that was built by appending, [eventsSince c] for a
    cursor [c] not beyond [latestId] holds exactly the retained events
    with an id above [c], each once, in ascending order of id, and they
    are the newest part of the retained history with nothing left out in
    between. *)
Theorem eventsSince_exact (L : nat) (log : t) (c : Z) :
  reachable L log ->
  c <= latestId log ->
  (forall e, e ∈ eventsSince c log <-> e ∈ entries log /\ c < eventId e)
  /\ StronglySorted Z.lt (map eventId (eventsSince c log))
  /\ NoDup (map eventId (eventsSince c log))
  /\ exists older,
       entries log = older ++ eventsSince c log
       /\ Forall (fun e => eventId e <= c) older.
Proof.
  intros Hreach _. apply reachable_invariant in Hreach.
  destruct (invariant_eventsSince_suffix L log c Hreach) as (older & Hsplit & Hold).
  assert (Hsorted : StronglySorted Z.lt (map eventId (eventsSince c log))).
  { pose proof (invariant_sorted L log Hreach) as Hs.
    rewrite Hsplit, map_app in Hs.
    eapply StronglySorted_app_1_r. exact Hs. }
  split.
  - intros e. unfold eventsSince. rewrite list_elem_of_filter. tauto.
  - split; [exact Hsorted|]. split; [apply sorted_lt_NoDup, Hsorted|].
    exists older. auto.
Qed.

Lemma eventsSince_exact_witness :
  reachable 2 (append_all [("post", "a"); ("post", "b"); ("nuke", "c")] (empty 2))
  /\ 1 <= latestId (append_all [("post", "a"); ("post", "b"); ("nuke", "c")] (empty 2))
  /\ eventsSince 2 (append_all [("post", "a"); ("post", "b"); ("nuke", "c")] (empty 2))
     = [{| eventId := 3; kind := "nuke"; payload := "c" |}]
  /\ StronglySorted Z.lt
       (map eventId
          (eventsSince 1 (append_all [("post", "a"); ("post", "b"); ("nuke", "c")]
                            (empty 2)))).
Proof.
  assert (Hr : reachable 2
                 (append_all [("post", "a"); ("post", "b"); ("nuke", "c")] (empty 2))).
  { unfold append_all. simpl foldl. repeat apply reachable_append.
    apply reachable_empty. }
  assert (Hc : 1 <= latestId
                      (append_all [("post", "a"); ("post", "b"); ("nuke", "c")] (empty 2))).
  { vm_compute. discriminate. }
  split; [exact Hr|]. split; [exact Hc|]. split; [vm_compute; reflexivity|].
  exact (proj1 (proj2 (eventsSince_exact 2 _ 1 Hr Hc))).
Defined.

Lemma append_all_snoc items x log :
  append_all (items ++ [x]) log = (append x.1 x.2 (append_all items log)).2.
Proof. unfold append_all. rewrite foldl_app. reflexivity. Qed.

Lemma append_all_reachable L items : reachable L (append_all items (empty L)).
Proof.
  induction items as [|x items IH] using rev_ind.
  - apply reachable_empty.
  - rewrite append_all_snoc. apply reachable_append, IH.
Qed.

Lemma latestId_append kind payload log :
  (0 < capacity log)%nat ->
  latestId (append kind payload log).2 = latestId log + 1.
Proof.
  intros HL. rewrite append_unfold. cbv zeta. simpl snd.
  rewrite latestId_evict by exact HL. apply latestId_push.
Qed.

(** What [append] does to the entries: the new event goes last, and the
    head goes when the log was full. *)
Lemma append_entries kind payload log :
  entries (append kind payload log).2
  = if (capacity log <? S (length (entries log)))%nat
    then tail (entries log ++ [(append kind payload log).1])
    else entries log ++ [(append kind payload log).1].
Proof.
  rewrite append_unfold. cbv zeta. simpl fst. simpl snd.
  rewrite evict_entries. simpl. rewrite length_app. simpl.
  rewrite Nat.add_1_r. reflexivity.
Qed.

Lemma append_length L kind payload log :
  (0 < L)%nat -> invariant L log ->
  length (entries (append kind payload log).2)
  = Nat.min (S (length (entries log))) L.
Proof.
  intros HL (Hcap & Hlen & _). rewrite append_entries, Hcap.
  destruct (Nat.ltb_spec L (S (length (entries log)))).
  - destruct (entries log) as [|x es]; cbn [length tail app] in *; [lia|].
    rewrite length_app. cbn [length]. lia.
  - rewrite length_app. cbn [length]. lia.
Qed.

Lemma append_all_counts L items :
  (0 < L)%nat ->
  latestId (append_all items (empty L)) = Z.of_nat (length items)
  /\ length (entries (append_all items (empty L))) = Nat.min (length items) L.
Proof.
  intros HL. induction items as [|x items [IHid IHlen]] using rev_ind.
  - split; reflexivity.
  - pose proof (reachable_invariant _ _ (append_all_reachable L items)) as Hinv.
    rewrite append_all_snoc, length_app. cbn [length]. split.
    + rewrite latestId_append; [lia|]. destruct Hinv as [-> _]. exact HL.
    + rewrite (append_length L) by assumption. lia.
Qed.

(** C7.  For a capacity [L] of at least one: a log built by appending is
    always sorted ascending by id and never longer than [L]; appending to
    a full log drops exactly its head and puts the new event last;
    appending [L + 1] events to the empty log leaves the [L] events with
    the ids 2 to [L + 1]; and the eviction step leaves [latestId] as it
    was. *)
Theorem eviction_takes_oldest (L : nat) :
  (0 < L)%nat ->
  (forall log, reachable L log ->
     StronglySorted Z.lt (map eventId (entries log))
     /\ (length (entries log) <= L)%nat)
  /\ (forall log kind payload, reachable L log ->
        length (entries log) = L ->
        entries (append kind payload log).2
        = tail (entries log) ++ [(append kind payload log).1])
  /\ (forall items, length items = S L ->
        length (entries (append_all items (empty L))) = L
        /\ map eventId (entries (append_all items (empty L))) = consecutive 2 L
        /\ latestId (append_all items (empty L)) = Z.of_nat L + 1)
  /\ (forall log e, reachable L log ->
        latestId (evict (push e log)) = latestId (push e log)).
Proof.
  intros HL. split; [|split; [|split]].
  - intros log Hr. apply reachable_invariant in Hr.
    split; [eapply invariant_sorted; eassumption | apply Hr].
  - intros log kind payload Hr Hfull. apply reachable_invariant in Hr.
    destruct Hr as (Hcap & _ & _). rewrite append_entries, Hcap, Hfull.
    rewrite (proj2 (Nat.ltb_lt L (S L))) by lia.
    destruct (entries log) as [|x es]; [simpl in Hfull; lia|]. reflexivity.
  - intros items Hlen.
    destruct (append_all_counts L items HL) as [Hid Hn].
    pose proof (reachable_invariant _ _ (append_all_reachable L items))
      as (_ & _ & Hids).
    rewrite Hlen in *. replace (Nat.min (S L) L) with L in Hn by lia.
    split; [exact Hn|]. split; [|rewrite Hid; lia].
    rewrite Hids, Hid, Hn. f_equal. lia.
  - intros log e Hr. apply latestId_evict.
    apply reachable_invariant in Hr. destruct Hr as (Hcap & _).
    simpl. rewrite Hcap. exact HL.
Qed.

Lemma eviction_takes_oldest_witness :
  (0 < 2)%nat
  /\ length (entries (append_all [("post", "a"); ("post", "b"); ("nuke", "c")]
                        (empty 2))) = 2%nat
  /\ map eventId (entries (append_all [("post", "a"); ("post", "b"); ("nuke", "c")]
                             (empty 2))) = consecutive 2 2
  /\ latestId (append_all [("post", "a"); ("post", "b"); ("nuke", "c")] (empty 2))
     = Z.of_nat 2 + 1.
Proof.
  assert (H : (0 < 2)%nat) by lia.
  split; [exact H|].
  exact (proj1 (proj2 (proj2 (eviction_takes_oldest 2 H)))
           [("post", "a"); ("post", "b"); ("nuke", "c")] eq_refl).
Defined.

End EventLogFacts.

(** ** Event dispatcher *)

Module DispatcherFacts.
Import EventLog EventLogFacts Dispatcher.

Lemma publish_event kind payload d :
  (publish kind payload d).1.1 = (append kind payload (log d)).1.
Proof. reflexivity. Qed.

Lemma publish_log kind payload d :
  log (publish kind payload d).2 = (append kind payload (log d)).2.
Proof. reflexivity. Qed.

(** The appended event is retained when the capacity is at least one. *)
Lemma appended_retained kind payload lg :
  (0 < capacity lg)%nat ->
  (append kind payload lg).1 ∈ entries (append kind payload lg).2.
Proof.
  intros HL. rewrite append_entries.
  destruct (Nat.ltb_spec (capacity lg) (S (length (entries lg)))).
  - destruct (entries lg) as [|x es]; cbn [length tail app] in *; [lia|].
    apply elem_of_app. right. constructor.
  - apply elem_of_app. right. constructor.
Qed.

Lemma waitForEvent_history_first d cursor timeout now :
  eventsSince cursor (log d) <> [] ->
  waitForEvent cursor timeout now d = (Returned (eventsSince cursor (log d)), d).
Proof.
  unfold waitForEvent. destruct (eventsSince cursor (log d)); [contradiction|].
  reflexivity.
Qed.

(** C1.  [waitForEvent] looks at the history before anything else: when
    [eventsSince cursor] is not empty it returns that sequence at once and
    the dispatcher, its waiters included, is as before; only an empty
    history makes it register a waiter.  So, for a capacity of at least
    one, an event published after the caller's last poll is among the
    events the next call returns at once. *)
Theorem waitForEvent_checks_history_first (d : Dispatcher.t) (cursor timeout now : Z) :
  (eventsSince cursor (log d) <> [] ->
   waitForEvent cursor timeout now d = (Returned (eventsSince cursor (log d)), d))
  /\ (eventsSince cursor (log d) = [] ->
      exists h d', waitForEvent cursor timeout now d = (Suspended h, d')
                   /\ length (waiters d') = S (length (waiters d)))
  /\ (forall kind payload,
        (0 < capacity (log d))%nat ->
        cursor <= latestId (log d) ->
        let published := (publish kind payload d).1.1 in
        let d' := (publish kind payload d).2 in
        waitForEvent cursor timeout now d'
        = (Returned (eventsSince cursor (log d')), d')
        /\ published ∈ eventsSince cursor (log d')).
Proof.
  split; [apply waitForEvent_history_first|]. split.
  - intros Hempty. unfold waitForEvent. rewrite Hempty.
    eexists _, _. split; [reflexivity|]. simpl. rewrite length_app. simpl. lia.
  - intros kind payload HL Hcursor published d'.
    assert (Hin : published ∈ eventsSince cursor (log d')).
    { unfold eventsSince. apply list_elem_of_filter. split.
      - unfold published. rewrite publish_event. simpl. lia.
      - unfold published, d'. rewrite publish_event, publish_log.
        apply appended_retained, HL. }
    split; [|exact Hin].
    apply waitForEvent_history_first. intros Hnil. rewrite Hnil in Hin.
    inversion Hin.
Qed.

Lemma waitForEvent_checks_history_first_witness :
  let d := create 2 in
  let d' := (publish "post" "P1" d).2 in
  (0 < capacity (log d))%nat /\ 0 <= latestId (log d)
  /\ waitForEvent 0 5 0 d'
     = (Returned [{| eventId := 1; kind := "post"; payload := "P1" |}], d')
  /\ (publish "post" "P1" d).1.1 ∈ eventsSince 0 (log d').
Proof.
  intros d d'.
  assert (HL : (0 < capacity (log d))%nat) by (simpl; lia).
  assert (Hc : 0 <= latestId (log d)) by (vm_compute; discriminate).
  split; [exact HL|]. split; [exact Hc|].
  exact (proj2 (proj2 (waitForEvent_checks_history_first d 0 5 0))
           "post" "P1" HL Hc).
Defined.

End DispatcherFacts.

(** ** Tree assembler *)

Module TreeAssemblerFacts.
Import TreeAssembler.

(** *** The index *)

Lemma index_by_parent_snoc posts p :
  index_by_parent (posts ++ [p])
  = match parentId p with
    | Some pid =>
        <[pid := default [] (index_by_parent posts !! pid) ++ [p]]>
          (index_by_parent posts)
    | None => index_by_parent posts
    end.
Proof. unfold index_by_parent. rewrite foldl_app. reflexivity. Qed.

Lemma index_by_parent_spec posts k q :
  q ∈ default [] (index_by_parent posts !! k) <-> q ∈ posts /\ parentId q = Some k.
Proof.
  induction posts as [|p posts IH] using rev_ind.
  - unfold index_by_parent. simpl. rewrite lookup_empty. simpl.
    split; [intros H; inversion H | intros [H _]; inversion H].
  - rewrite index_by_parent_snoc, elem_of_app, list_elem_of_singleton.
    destruct (parentId p) as [pid|] eqn:Hp.
    + destruct (decide (pid = k)) as [->|Hne].
      * rewrite lookup_insert_eq. simpl. rewrite elem_of_app, IH, list_elem_of_singleton.
        split; [intros [[? ?]| ->]; auto | intros [[?| ->] ?]; auto].
      * rewrite lookup_insert_ne by assumption. rewrite IH.
        split; [intros [? ?]; auto | intros [[?| ->] ?]; [auto | congruence]].
    + rewrite IH. split; [intros [? ?]; auto | intros [[?| ->] ?]; [auto | congruence]].
Qed.

Lemma children_spec posts p q :
  q ∈ children (index_by_parent posts) p <-> q ∈ posts /\ parentId q = Some (id p).
Proof. apply index_by_parent_spec. Qed.

(** *** The order of the posts *)

Lemma parent_before_child_cons p rest :
  parent_before_child (p :: rest) = true ->
  (forall q, q ∈ rest -> id q <> id p /\ parentId p <> Some (id q))
  /\ parentId p <> Some (id p)
  /\ parent_before_child rest = true.
Proof.
  simpl. rewrite !andb_true_iff, forallb_forall, negb_true_iff, bool_decide_eq_false.
  intros [[Hall Hself] Hrest]. split; [|auto].
  intros q Hq. apply list_elem_of_In, Hall in Hq.
  rewrite andb_true_iff, !negb_true_iff, !bool_decide_eq_false in Hq. exact Hq.
Qed.

Lemma height_bounds posts x :
  x ∈ posts -> (1 <= height posts (id x) <= length posts)%nat.
Proof.
  induction posts as [|p rest IH]; intros Hx; [inversion Hx|].
  simpl. case_bool_decide as Hid; [lia|].
  apply elem_of_cons in Hx as [->|Hx]; [congruence|].
  specialize (IH Hx). lia.
Qed.

Lemma height_le_length posts i : (height posts i <= length posts)%nat.
Proof.
  induction posts as [|p rest IH]; simpl; [lia|]. case_bool_decide; lia.
Qed.

Lemma id_inj posts x y :
  parent_before_child posts = true ->
  x ∈ posts -> y ∈ posts -> id x = id y -> x = y.
Proof.
  induction posts as [|p rest IH]; intros Hwf Hx Hy Hid; [inversion Hx|].
  apply parent_before_child_cons in Hwf as (Hall & _ & Hrest).
  apply elem_of_cons in Hx as [->|Hx], Hy as [->|Hy]; auto.
  - destruct (Hall y Hy); congruence.
  - destruct (Hall x Hx); congruence.
Qed.

(** A child comes later than its parent. *)
Lemma height_parent posts q x :
  parent_before_child posts = true ->
  is_parent posts q x ->
  (height posts (id x) < height posts (id q))%nat.
Proof.
  induction posts as [|p rest IH]; intros Hwf (Hq & Hx & Hpar); [inversion Hq|].
  apply parent_before_child_cons in Hwf as (Hall & Hself & Hrest).
  simpl. case_bool_decide as Hpx; case_bool_decide as Hpq.
  - (* both carry the id of [p]: [p] would be its own parent *)
    exfalso.
    assert (x = p) as ->.
    { apply elem_of_cons in Hx as [->|Hx]; [reflexivity|].
      destruct (Hall x Hx); congruence. }
    congruence.
  - (* [x] is [p] and its parent comes later *)
    exfalso.
    assert (x = p) as ->.
    { apply elem_of_cons in Hx as [->|Hx]; [reflexivity|].
      destruct (Hall x Hx); congruence. }
    apply elem_of_cons in Hq as [->|Hq]; [congruence|].
    destruct (Hall q Hq); congruence.
  - pose proof (height_le_length rest (id x)). lia.
  - apply IH; [assumption|].
    apply elem_of_cons in Hq as [->|Hq]; [congruence|].
    apply elem_of_cons in Hx as [->|Hx]; [congruence|].
    repeat split; assumption.
Qed.

(** *** The walk *)

Lemma elem_of_flat_map {A B} (f : A -> list B) (l : list A) (y : B) :
  y ∈ flat_map f l <-> exists x, x ∈ l /\ y ∈ f x.
Proof.
  rewrite list_elem_of_In, in_flat_map.
  split; intros (x & Hx & Hy); exists x; split; apply list_elem_of_In; assumption.
Qed.

Lemma elem_of_walk fuel idx r x :
  x ∈ walk (S fuel) idx r <->
  x = r \/ (has_flag Nuked r = false
            /\ exists c, c ∈ children idx r /\ x ∈ walk fuel idx c).
Proof.
  cbn [walk]. rewrite elem_of_cons.
  destruct (has_flag Nuked r).
  - split; [intros [->|H]; [auto | inversion H] | intros [->|[H _]]; [auto | discriminate]].
  - rewrite elem_of_flat_map. split; intros [->|H]; auto; right; tauto.
Qed.

Lemma kept_from_in posts r x : kept_from posts r x -> r ∈ posts /\ x ∈ posts.
Proof.
  induction 1 as [Hr|q x _ [IHr _] _ (_ & Hx & _)]; auto.
Qed.

(** A path can be extended at its top. *)
Lemma kept_from_below posts r c x :
  has_flag Nuked r = false -> is_parent posts r c ->
  kept_from posts c x -> kept_from posts r x.
Proof.
  intros Hr Hpar. induction 1 as [Hc|q x _ IH Hq Hqx].
  - eapply kept_child; [apply kept_root, Hpar | exact Hr | exact Hpar].
  - eapply kept_child; eassumption.
Qed.

Lemma walk_sound posts fuel r x :
  r ∈ posts -> x ∈ walk fuel (index_by_parent posts) r -> kept_from posts r x.
Proof.
  revert r. induction fuel as [|fuel IH]; intros r Hr Hx; [inversion Hx|].
  apply elem_of_walk in Hx as [->|(Hnuked & c & Hc & Hx)].
  - apply kept_root, Hr.
  - apply children_spec in Hc as [Hc Hpar].
    apply (kept_from_below posts r c x Hnuked); [repeat split; assumption|].
    apply IH; assumption.
Qed.

Lemma walk_root fuel idx r : (1 <= fuel)%nat -> r ∈ walk fuel idx r.
Proof. destruct fuel; [lia|]. intros _. apply elem_of_walk. auto. Qed.

(** With fuel for the height of the root, the children of every visited
    post without the flag are visited too. *)
Lemma walk_child posts fuel r q x :
  parent_before_child posts = true ->
  r ∈ posts -> (height posts (id r) <= fuel)%nat ->
  q ∈ walk fuel (index_by_parent posts) r ->
  has_flag Nuked q = false -> is_parent posts q x ->
  x ∈ walk fuel (index_by_parent posts) r.
Proof.
  intros Hwf. revert r.
  induction fuel as [|fuel IH]; intros r Hr Hfuel Hq Hnuked Hqx; [inversion Hq|].
  apply elem_of_walk. right.
  apply elem_of_walk in Hq as [->|(Hr_ok & c & Hc & Hq)].
  - split; [exact Hnuked|]. exists x. split.
    + apply children_spec. destruct Hqx as (_ & Hx & Hpar). auto.
    + apply walk_root.
      pose proof (height_parent posts r x Hwf Hqx).
      destruct Hqx as (_ & Hx & _). pose proof (height_bounds posts x Hx). lia.
  - split; [exact Hr_ok|]. exists c. split; [exact Hc|].
    apply children_spec in Hc as [Hc Hpar].
    apply IH; try assumption.
    assert (Hrc : is_parent posts r c) by (repeat split; assumption).
    pose proof (height_parent posts r c Hwf Hrc). lia.
Qed.

Lemma walk_complete posts fuel r x :
  parent_before_child posts = true ->
  (height posts (id r) <= fuel)%nat ->
  kept_from posts r x -> x ∈ walk fuel (index_by_parent posts) r.
Proof.
  intros Hwf Hfuel. induction 1 as [Hr|q x Hq IH Hnuked Hqx].
  - apply walk_root. pose proof (height_bounds posts r Hr). lia.
  - apply (walk_child posts fuel r q x); try assumption.
    apply (kept_from_in posts r q Hq).
Qed.

Lemma prune_iff_kept posts x :
  parent_before_child posts = true ->
  x ∈ pruneNukedSubtrees posts <->
  exists r, r ∈ posts /\ is_root posts r = true /\ kept_from posts r x.
Proof.
  intros Hwf. unfold pruneNukedSubtrees. rewrite elem_of_flat_map. split.
  - intros (r & Hr & Hx). apply list_elem_of_In, filter_In in Hr as [Hr Hroot].
    apply list_elem_of_In in Hr. exists r. eauto using walk_sound.
  - intros (r & Hr & Hroot & Hk). exists r. split.
    + apply list_elem_of_In, filter_In. split; [apply list_elem_of_In, Hr|exact Hroot].
    + apply walk_complete; [assumption| |assumption].
      apply height_le_length.
Qed.

(** *** Ancestors *)

Lemma parent_unique posts q q' x :
  parent_before_child posts = true ->
  is_parent posts q x -> is_parent posts q' x -> q = q'.
Proof.
  intros Hwf (Hq & _ & Hp) (Hq' & _ & Hp').
  apply (id_inj posts); try assumption. congruence.
Qed.

Lemma root_has_no_parent posts r q :
  is_root posts r = true -> is_parent posts q r -> False.
Proof.
  unfold is_root. intros Hroot (Hq & _ & Hpar). rewrite Hpar in Hroot.
  apply negb_true_iff, bool_decide_eq_false in Hroot. apply Hroot.
  apply list_elem_of_In, in_map, list_elem_of_In, Hq.
Qed.

Lemma not_root_has_parent posts x :
  x ∈ posts -> is_root posts x = false -> exists q, is_parent posts q x.
Proof.
  unfold is_root. intros Hx Hroot.
  destruct (parentId x) as [pid|] eqn:Hpar; [|discriminate].
  apply negb_false_iff, bool_decide_eq_true in Hroot.
  apply list_elem_of_In, in_map_iff in Hroot as (q & <- & Hq).
  exists q. repeat split; [apply list_elem_of_In, Hq | exact Hx | exact Hpar].
Qed.

Lemma ancestor_has_parent posts a x :
  ancestor posts a x -> exists q, is_parent posts q x.
Proof. destruct 1; eauto. Qed.

Lemma kept_no_nuked_ancestor posts r x :
  parent_before_child posts = true ->
  is_root posts r = true -> kept_from posts r x ->
  forall a, ancestor posts a x -> has_flag Nuked a = false.
Proof.
  intros Hwf Hroot. induction 1 as [Hr|q x Hq IH Hnuked Hqx]; intros a Ha.
  - exfalso. apply ancestor_has_parent in Ha as [q Hq].
    eapply root_has_no_parent; eassumption.
  - inversion Ha as [a' x' Hax|a' q' x' Haq Hq'x]; subst.
    + rewrite (parent_unique posts a q x Hwf Hax Hqx). exact Hnuked.
    + rewrite (parent_unique posts q' q x Hwf Hq'x Hqx) in Haq. auto.
Qed.

Lemma no_nuked_ancestor_kept posts x :
  parent_before_child posts = true ->
  x ∈ posts ->
  (forall a, ancestor posts a x -> has_flag Nuked a = false) ->
  exists r, r ∈ posts /\ is_root posts r = true /\ kept_from posts r x.
Proof.
  intros Hwf.
  remember (length posts - height posts (id x))%nat as m eqn:Hm.
  revert x Hm. induction m as [m IH] using lt_wf_ind. intros x Hm Hx Hclean.
  destruct (is_root posts x) eqn:Hroot.
  - exists x. split; [exact Hx|]. split; [exact Hroot | apply kept_root, Hx].
  - destruct (not_root_has_parent posts x Hx Hroot) as [q Hqx].
    pose proof (height_parent posts q x Hwf Hqx) as Hlt.
    assert (Hq : q ∈ posts) by apply Hqx.
    pose proof (height_bounds posts q Hq) as Hbq.
    destruct (IH (length posts - height posts (id q))%nat ltac:(lia) q eq_refl Hq)
      as (r & Hr & Hrroot & Hk).
    { intros a Ha. apply Hclean. eapply ancestor_step; eassumption. }
    exists r. split; [exact Hr|]. split; [exact Hrroot|].
    eapply kept_child; [exact Hk| |exact Hqx].
    apply Hclean. apply ancestor_parent, Hqx.
Qed.

(** C2.  For posts in parent-before-child order, the pruning keeps a post
    exactly when none of its ancestors other than itself has the [Nuked]
    flag: a post with the flag stays, everything below it goes whatever
    its own flags, and the other branches are untouched.  For A (root), B
    (child of A, [Nuked]), C (child of B) and D (child of A) the result is
    A, B, D. *)
Theorem prune_keeps_unless_nuked_ancestor :
  (forall posts, parent_before_child posts = true ->
     forall x, x ∈ pruneNukedSubtrees posts <->
               x ∈ posts /\ forall a, ancestor posts a x -> has_flag Nuked a = false)
  /\ pruneNukedSubtrees [post_A; post_B; post_C; post_D] = [post_A; post_B; post_D].
Proof.
  split; [|vm_compute; reflexivity].
  intros posts Hwf x. rewrite prune_iff_kept by assumption. split.
  - intros (r & Hr & Hroot & Hk). split; [apply (kept_from_in posts r x Hk)|].
    eapply kept_no_nuked_ancestor; eassumption.
  - intros [Hx Hclean]. apply no_nuked_ancestor_kept; assumption.
Qed.

Lemma prune_keeps_unless_nuked_ancestor_witness :
  parent_before_child [post_A; post_B; post_C; post_D] = true
  /\ (post_D ∈ pruneNukedSubtrees [post_A; post_B; post_C; post_D] <->
      post_D ∈ [post_A; post_B; post_C; post_D]
      /\ forall a, ancestor [post_A; post_B; post_C; post_D] a post_D ->
                   has_flag Nuked a = false).
Proof.
  assert (H : parent_before_child [post_A; post_B; post_C; post_D] = true)
    by (vm_compute; reflexivity).
  split; [exact H|].
  exact (proj1 prune_keeps_unless_nuked_ancestor
           [post_A; post_B; post_C; post_D] H post_D).
Defined.

End TreeAssemblerFacts.

(** * Further properties of the sources *)

(** ** What the getters of [QueryParser] accept *)

Module QueryParserResults.
Import QueryParser QueryParserFacts.
Import WaitForEventRoute(decimal_value).

Lemma get_iff req name v :
  get req name = Ok v <-> params req !! name = Some v /\ v <> EmptyString.
Proof.
  unfold get, has. destruct (params req !! name) as [w|]; simpl.
  - destruct (String.eqb_spec w EmptyString) as [->|Hne]; simpl.
    + split; [discriminate | intros [[= <-] H]; contradiction].
    + split; [intros [= ->]; auto | intros [[= ->] _]; reflexivity].
  - split; [discriminate | intros [[=] _]].
Qed.

Lemma has_iff req name :
  has req name = true <-> exists v, params req !! name = Some v /\ v <> EmptyString.
Proof.
  unfold has. destruct (params req !! name) as [w|].
  - destruct (String.eqb_spec w EmptyString) as [->|Hne]; simpl.
    + split; [discriminate | intros (v & [= <-] & H); contradiction].
    + split; [eauto | reflexivity].
  - split; [discriminate | intros (v & [=] & _)].
Qed.

Lemma length_pos v : v <> EmptyString -> 1 <= Js.length v.
Proof. destruct v; [contradiction|]. unfold Js.length. simpl. lia. Qed.

Lemma getString_iff req name lo hi v :
  getString req name lo hi = Ok v <->
  params req !! name = Some v /\ v <> EmptyString
  /\ default 1 lo <= Js.length v <= default 2147483647 hi.
Proof.
  unfold getString. destruct (get req name) as [w|e] eqn:Hget; simpl.
  - apply get_iff in Hget as [Hw Hne].
    destruct (Z.ltb_spec (Js.length w) (default 1 lo)).
    + split; [discriminate|]. intros (Hv & _ & Hb). rewrite Hw in Hv.
      injection Hv as <-. lia.
    + destruct (Z.ltb_spec (default 2147483647 hi) (Js.length w)).
      * split; [discriminate|]. intros (Hv & _ & Hb). rewrite Hw in Hv.
        injection Hv as <-. lia.
      * split.
        -- intros [= <-]. auto.
        -- intros (Hv & _ & _). rewrite Hw in Hv. injection Hv as <-. reflexivity.
  - split; [discriminate|]. intros (Hv & Hne & _).
    assert (Hok : get req name = Ok v) by (apply get_iff; auto). congruence.
Qed.

(** X1.  For a name that is not inherited from [Object.prototype],
    [getString] returns exactly the text of a present parameter that is not
    empty and whose length lies between the bounds; an absent or empty
    parameter is reported as a missing argument whatever the bounds, so no
    empty string is ever returned, even for a lower bound of 0. *)
Theorem getString_result req name lo hi :
  is_inherited name = false ->
  (forall v, getString req name lo hi = Ok v <->
             params req !! name = Some v /\ v <> EmptyString
             /\ default 1 lo <= Js.length v <= default 2147483647 hi)
  /\ (params req !! name = None \/ params req !! name = Some EmptyString ->
      getString req name lo hi
      = Throw (apiError ERR_ARGUMENT ("Missing argument " +:+ quoted name))).
Proof.
  intros _. split; [intros v; apply getString_iff|].
  intros Hp. unfold getString, get, has.
  destruct Hp as [-> | ->]; reflexivity.
Qed.

Lemma getString_result_witness :
  is_inherited "username" = false
  /\ (forall v,
        getString SetCategoryFilters.full_request "username" (Some 1) (Some 50) = Ok v <->
        params SetCategoryFilters.full_request !! "username" = Some v
        /\ v <> EmptyString /\ 1 <= Js.length v <= 50)
  /\ (params SetCategoryFilters.full_request !! "tangents" = None
      \/ params SetCategoryFilters.full_request !! "tangents" = Some EmptyString ->
      getString SetCategoryFilters.full_request "tangents" None None
      = Throw (apiError ERR_ARGUMENT ("Missing argument " +:+ quoted "tangents"))).
Proof.
  assert (H : is_inherited "username" = false) by reflexivity.
  assert (H' : is_inherited "tangents" = false) by reflexivity.
  split; [exact H|]. split.
  - exact (proj1 (getString_result SetCategoryFilters.full_request "username"
                    (Some 1) (Some 50) H)).
  - exact (proj2 (getString_result SetCategoryFilters.full_request "tangents"
                    None None H')).
Defined.

(** *** Decimal strings *)

Lemma digit_value_decimal c :
  Js.is_decimal_digit c = true ->
  exists k, Js.digit_value c = Some k /\ 0 <= k <= 9.
Proof.
  unfold Js.is_decimal_digit, Js.digit_value. cbv zeta. intros H. rewrite H.
  apply andb_true_iff in H as [H1 H2]. apply Z.leb_le in H1, H2.
  eexists. split; [reflexivity|]. lia.
Qed.

Lemma digits_prefix_decimal s : forall acc count,
  Js.all_decimal_digits s = true -> 0 <= acc ->
  snd (Js.digits_prefix 10 acc count s) = (count + String.length s)%nat
  /\ acc * 10 ^ Z.of_nat (String.length s)
     <= fst (Js.digits_prefix 10 acc count s)
     < (acc + 1) * 10 ^ Z.of_nat (String.length s).
Proof.
  induction s as [|c s IH]; intros acc count Hall Hacc.
  - simpl. split; lia.
  - simpl in Hall. apply andb_true_iff in Hall as [Hc Hs].
    destruct (digit_value_decimal c Hc) as (k & Hk & Hrange).
    cbn [Js.digits_prefix]. rewrite Hk.
    destruct (Z.ltb_spec k 10); [|lia].
    destruct (IH (acc * 10 + k) (S count) Hs ltac:(lia)) as [Hn Hv].
    split; [rewrite Hn; simpl; lia|].
    cbn [String.length]. rewrite Nat2Z.inj_succ, Z.pow_succ_r by lia.
    nia.
Qed.

(** The reading of a run of [n] decimal digits lies in 0 .. 10^n - 1. *)
Lemma decimal_value_bounds s :
  Js.all_decimal_digits s = true ->
  0 <= decimal_value s < 10 ^ Z.of_nat (String.length s).
Proof.
  intros H. destruct (digits_prefix_decimal s 0 0%nat H ltac:(lia)) as [_ Hv].
  unfold decimal_value. lia.
Qed.

Lemma regex_all_digits s :
  Js.integerRegEx_test s = true <-> s <> EmptyString /\ Js.all_decimal_digits s = true.
Proof.
  destruct s; simpl; [split; [discriminate | intros [H _]; contradiction]|].
  split; [intros H; split; [discriminate | exact H] | intros [_ H]; exact H].
Qed.

Lemma parseFloat_decimal s :
  Js.integerRegEx_test s = true -> Js.parseFloat s = Num (decimal_value s).
Proof. intros H. unfold Js.parseFloat. rewrite H. reflexivity. Qed.

Lemma getInteger_returns req name lo hi n :
  getInteger req name lo hi = Ok n ->
  exists v, params req !! name = Some v
            /\ Js.integerRegEx_test v = true
            /\ Js.length v <= 10
            /\ default 0 lo <= decimal_value v <= default 2147483647 hi
            /\ n = Num (decimal_value v).
Proof.
  unfold getInteger. intros H. apply bind_Ok in H as (v & Hv & H).
  apply getString_iff in Hv as (Hp & Hne & Hlen). simpl in Hlen.
  destruct (Js.integerRegEx_test v) eqn:Hre; simpl in H; [|discriminate].
  rewrite parseFloat_decimal in H by assumption. simpl in H.
  destruct (Z.ltb_spec (decimal_value v) (default 0 lo)); [discriminate|].
  destruct (Z.ltb_spec (default 2147483647 hi) (decimal_value v)); [discriminate|].
  injection H as <-. exists v. repeat split; try assumption; lia.
Qed.

Lemma getInteger_accepts req name lo hi v :
  params req !! name = Some v ->
  Js.integerRegEx_test v = true ->
  Js.length v <= 10 ->
  default 0 lo <= decimal_value v <= default 2147483647 hi ->
  getInteger req name lo hi = Ok (Num (decimal_value v)).
Proof.
  intros Hp Hre Hlen Hb. unfold getInteger.
  assert (Hne : v <> EmptyString) by (apply regex_all_digits in Hre; tauto).
  assert (Hs : getString req name (Some 1) (Some 10) = Ok v).
  { apply getString_iff. pose proof (length_pos v Hne). simpl. auto. }
  rewrite Hs. simpl. rewrite Hre. simpl.
  rewrite parseFloat_decimal by assumption. simpl.
  destruct (Z.ltb_spec (decimal_value v) (default 0 lo)); [lia|].
  destruct (Z.ltb_spec (default 2147483647 hi) (decimal_value v)); [lia|].
  reflexivity.
Qed.

(** A run of at most ten decimal digits reads as at most 9999999999. *)
Lemma ten_digits_bound v :
  Js.integerRegEx_test v = true -> Js.length v <= 10 ->
  0 <= decimal_value v <= 9999999999.
Proof.
  intros Hre Hlen.
  pose proof (decimal_value_bounds v (proj2 (proj1 (regex_all_digits v) Hre))) as Hb.
  assert (10 ^ Z.of_nat (String.length v) <= 10 ^ 10).
  { apply Z.pow_le_mono_r; [lia|]. unfold Js.length in Hlen. lia. }
  lia.
Qed.

(** X2.  [getInteger] returns exactly the decimal reading of a parameter
    made of one to ten decimal digits whose value lies between the bounds;
    what it returns is never [NaN] and, whatever bounds are passed, lies in
    0 .. 9999999999. *)
Theorem getInteger_result req name lo hi n :
  getInteger req name lo hi = Ok n <->
  exists v, params req !! name = Some v
            /\ Js.integerRegEx_test v = true
            /\ Js.length v <= 10
            /\ default 0 lo <= decimal_value v <= default 2147483647 hi
            /\ 0 <= decimal_value v <= 9999999999
            /\ n = Num (decimal_value v).
Proof.
  split.
  - intros H. apply getInteger_returns in H as (v & Hp & Hre & Hlen & Hb & ->).
    exists v. split; [exact Hp|]. split; [exact Hre|]. split; [exact Hlen|].
    split; [exact Hb|]. split; [apply ten_digits_bound; assumption | reflexivity].
  - intros (v & Hp & Hre & Hlen & Hb & _ & ->).
    apply getInteger_accepts; assumption.
Qed.

(** *** Splitting at commas *)

Lemma split_nonempty sep s : Js.split sep s <> [].
Proof.
  destruct s as [|c s]; simpl; [discriminate|].
  destruct (Ascii.eqb c sep); [discriminate|].
  destruct (Js.split sep s); discriminate.
Qed.

(** Joining what [split] gives restores the text. *)
Lemma join_split sep s : Js.join sep (Js.split sep s) = s.
Proof.
  induction s as [|c s IH]; [reflexivity|].
  cbn [Js.split]. destruct (Ascii.eqb_spec c sep) as [->|Hne].
  - pose proof (split_nonempty sep s) as Hs.
    destruct (Js.split sep s) as [|x xs]; [contradiction|].
    cbn [Js.join] in *. rewrite IH. reflexivity.
  - pose proof (split_nonempty sep s) as Hs.
    destruct (Js.split sep s) as [|x xs]; [contradiction|].
    cbn [Js.join] in *. destruct xs as [|y ys].
    + rewrite IH. reflexivity.
    + rewrite <- IH. reflexivity.
Qed.

Lemma split_items_without_separator sep s :
  Forall (fun x => Js.contains sep x = false) (Js.split sep s).
Proof.
  induction s as [|c s IH]; [repeat constructor|].
  cbn [Js.split]. destruct (Ascii.eqb c sep) eqn:Hc.
  - constructor; [reflexivity | exact IH].
  - destruct (Js.split sep s) as [|x xs].
    + repeat constructor. simpl. rewrite Hc. reflexivity.
    + inversion IH as [|? ? Hx Hxs]; subst. constructor; [|exact Hxs].
      simpl. rewrite Hc, Hx. reflexivity.
Qed.

Lemma split_without_separator sep s :
  Js.contains sep s = false -> Js.split sep s = [s].
Proof.
  induction s as [|c s IH]; [reflexivity|].
  simpl. intros H. apply orb_false_iff in H as [Hc Hs].
  rewrite Hc, (IH Hs). reflexivity.
Qed.

Lemma split_singleton sep s x : Js.split sep s = [x] -> x = s.
Proof. intros H. rewrite <- (join_split sep s), H. reflexivity. Qed.

(** What a decimal digit is not. *)
Lemma decimal_digit_facts c :
  Js.is_decimal_digit c = true ->
  Js.is_white_space c = false
  /\ Ascii.eqb c (ascii_of_nat 44) = false
  /\ Ascii.eqb c (ascii_of_nat 45) = false
  /\ Ascii.eqb c (ascii_of_nat 43) = false
  /\ Ascii.eqb c (ascii_of_nat 120) = false
  /\ Ascii.eqb c (ascii_of_nat 88) = false.
Proof.
  destruct c as [[] [] [] [] [] [] [] []]; vm_compute; intros H;
    try discriminate H; repeat split.
Qed.

Lemma digits_without_comma s :
  Js.all_decimal_digits s = true -> Js.contains (ascii_of_nat 44) s = false.
Proof.
  induction s as [|c s IH]; [reflexivity|].
  simpl. intros H. apply andb_true_iff in H as [Hc Hs].
  destruct (decimal_digit_facts c Hc) as (_ & Hcomma & _).
  rewrite Hcomma, (IH Hs). reflexivity.
Qed.

(** With radix 0 a run of decimal digits is read in decimal. *)
Lemma parseInt_decimal v :
  Js.integerRegEx_test v = true -> Js.parseInt v 0 = Num (decimal_value v).
Proof.
  intros Hre. apply regex_all_digits in Hre as [Hne Hall].
  destruct v as [|c s]; [contradiction|].
  pose proof Hall as Hall'. simpl in Hall'.
  apply andb_true_iff in Hall' as [Hc Hs].
  destruct (decimal_digit_facts c Hc) as (Hws & _ & Hminus & Hplus & _ & _).
  destruct (digits_prefix_decimal (String c s) 0 0%nat Hall ltac:(lia)) as [Hcount _].
  unfold Js.parseInt. cbn [Js.trim_start]. rewrite Hws, Hminus, Hplus.
  change (Js.ToInt32 0) with 0. cbv beta iota zeta.
  change (negb (0 =? 0) && ((0 <? 2) || (36 <? 0))) with false.
  change ((0 =? 0) || (0 =? 16)) with true.
  change (if 0 =? 0 then 10 else 0) with 10.
  cbv beta iota zeta.
  assert (Hprefix :
    match s with
    | String c1 rest =>
        if true && Ascii.eqb c (ascii_of_nat 48)
           && (Ascii.eqb c1 (ascii_of_nat 120) || Ascii.eqb c1 (ascii_of_nat 88))
        then (16, rest) else (10, String c s)
    | EmptyString => (10, String c s)
    end = (10, String c s)).
  { destruct s as [|c1 rest]; [reflexivity|].
    simpl in Hs. apply andb_true_iff in Hs as [Hc1 _].
    destruct (decimal_digit_facts c1 Hc1) as (_ & _ & _ & _ & Hx & HX).
    rewrite Hx, HX, andb_false_r. reflexivity. }
  rewrite Hprefix. unfold decimal_value.
  destruct (Js.digits_prefix 10 0 0%nat (String c s)) as [value count].
  simpl in Hcount. subst count. cbn [fst]. f_equal. lia.
Qed.

Lemma getIntegerList_single req name a b lo hi v :
  get req name = Ok v ->
  Js.split (ascii_of_nat 44) v = [v] ->
  getIntegerList req name a b lo hi
  = if (1 <? default 1 a) then
      Throw (apiError ERR_ARGUMENT
        ("The comma-separated list " +:+ quoted name +:+ " must have at least "
         +:+ pretty (default 1 a) +:+ " item(s)."))
    else if (default 2147483647 b <? 1) then
      Throw (apiError ERR_ARGUMENT
        ("The comma-separated list " +:+ quoted name +:+ " must have at most  "
         +:+ pretty (default 2147483647 b) +:+ " item(s)."))
    else if negb (Js.integerRegEx_test v) then
      Throw (apiError ERR_ARGUMENT
        ("Each item in the comma-separated list " +:+ quoted name
         +:+ " must be an integer."))
    else if negb (Js.geb (Js.parseInt v 0) (default 0 lo)) then
      Throw (apiError ERR_ARGUMENT
        ("Each item in the comma-separated list " +:+ quoted name
         +:+ " must be greater than or equal to " +:+ pretty (default 0 lo) +:+ "."))
    else if negb (Js.leb (Js.parseInt v 0) (default 2147483647 hi)) then
      Throw (apiError ERR_ARGUMENT
        ("Each item in the comma-separated list " +:+ quoted name
         +:+ " must be less than or equal to " +:+ pretty (default 2147483647 hi) +:+ "."))
    else Ok [Js.parseInt v 0].
Proof.
  intros Hget Hsplit. unfold getIntegerList. rewrite Hget. simpl.
  rewrite Hsplit. unfold lodash_map_parseInt. simpl. rewrite !andb_true_r.
  reflexivity.
Qed.

Lemma getIntegerList_returns req name a b lo hi ns :
  getIntegerList req name a b lo hi = Ok ns ->
  exists v, params req !! name = Some v
            /\ Js.integerRegEx_test v = true
            /\ default 1 a <= 1 <= default 2147483647 b
            /\ default 0 lo <= decimal_value v <= default 2147483647 hi
            /\ ns = [Num (decimal_value v)].
Proof.
  intros H.
  destruct (get req name) as [v|e] eqn:Hget;
    [|unfold getIntegerList in H; rewrite Hget in H; discriminate].
  destruct (Js.split (ascii_of_nat 44) v) as [|x [|y rest]] eqn:Hsplit.
  - exfalso. eapply split_nonempty. eassumption.
  - pose proof (split_singleton _ _ _ Hsplit) as ->.
    rewrite (getIntegerList_single req name a b lo hi v Hget Hsplit) in H.
    destruct (Z.ltb_spec 1 (default 1 a)); [discriminate|].
    destruct (Z.ltb_spec (default 2147483647 b) 1); [discriminate|].
    destruct (Js.integerRegEx_test v) eqn:Hre; [|discriminate].
    rewrite parseInt_decimal in H by assumption. simpl in H.
    destruct (Z.leb_spec (default 0 lo) (decimal_value v)); [|discriminate].
    destruct (Z.leb_spec (decimal_value v) (default 2147483647 hi)); [|discriminate].
    simpl in H. injection H as <-.
    apply get_iff in Hget as [Hp _]. exists v. repeat split; auto.
  - exfalso.
    destruct (GetPostRouteFacts.getIntegerList_two_items_rejected
                req name a b lo hi v x y rest Hget Hsplit) as [msg Hmsg].
    congruence.
Qed.

Lemma getIntegerList_accepts req name a b lo hi v :
  params req !! name = Some v ->
  Js.integerRegEx_test v = true ->
  default 1 a <= 1 <= default 2147483647 b ->
  default 0 lo <= decimal_value v <= default 2147483647 hi ->
  getIntegerList req name a b lo hi = Ok [Num (decimal_value v)].
Proof.
  intros Hp Hre Hcount Hb.
  pose proof (proj1 (regex_all_digits v) Hre) as [Hne Hall].
  assert (Hget : get req name = Ok v) by (apply get_iff; auto).
  assert (Hsplit : Js.split (ascii_of_nat 44) v = [v]).
  { apply split_without_separator, digits_without_comma, Hall. }
  rewrite (getIntegerList_single req name a b lo hi v Hget Hsplit).
  destruct (Z.ltb_spec 1 (default 1 a)); [lia|].
  destruct (Z.ltb_spec (default 2147483647 b) 1); [lia|].
  rewrite Hre, parseInt_decimal by assumption. simpl.
  destruct (Z.leb_spec (default 0 lo) (decimal_value v)); [|lia].
  destruct (Z.leb_spec (decimal_value v) (default 2147483647 hi)); [|lia].
  reflexivity.
Qed.

(** X3.  For an upper bound below 2^53, up to which a double holds every
    integer exactly, [getIntegerList] succeeds only on a single item: it
    returns exactly the one-element list holding the decimal reading of a
    parameter made of decimal digits alone, when one item is within the
    count bounds and the value within the value bounds.  No list of two or
    more numbers and no [NaN] is ever returned. *)
Theorem getIntegerList_result req name a b lo hi :
  default 2147483647 hi < 9007199254740992 ->
  (forall ns,
      getIntegerList req name a b lo hi = Ok ns <->
      exists v, params req !! name = Some v
                /\ Js.integerRegEx_test v = true
                /\ default 1 a <= 1 <= default 2147483647 b
                /\ default 0 lo <= decimal_value v <= default 2147483647 hi
                /\ ns = [Num (decimal_value v)])
  /\ (forall ns,
        getIntegerList req name a b lo hi = Ok ns -> length ns = 1%nat /\ NaN ∉ ns).
Proof.
  intros _. split.
  - intros ns. split.
    + apply getIntegerList_returns.
    + intros (v & Hp & Hre & Hcount & Hb & ->).
      apply getIntegerList_accepts; assumption.
  - intros ns H. apply getIntegerList_returns in H as (v & _ & _ & _ & _ & ->).
    split; [reflexivity|]. intros Hin.
    apply list_elem_of_singleton in Hin. discriminate.
Qed.

Lemma getIntegerList_result_witness :
  default 2147483647 (@None Z) < 9007199254740992
  /\ (forall ns,
        getIntegerList (GetPostRoute.request_for_ids "4") "id"
          (Some 1) (Some 50) (Some 1) None = Ok ns ->
        length ns = 1%nat /\ NaN ∉ ns).
Proof.
  assert (H : default 2147483647 (@None Z) < 9007199254740992) by reflexivity.
  split; [exact H|].
  exact (proj2 (getIntegerList_result (GetPostRoute.request_for_ids "4") "id"
                  (Some 1) (Some 50) (Some 1) None H)).
Defined.

Lemma forallb_bounds (lo hi : Z) (l : list string) :
  forallb (fun x => lo <=? Js.length x) l = true
  /\ forallb (fun x => Js.length x <=? hi) l = true
  <-> Forall (fun x => lo <= Js.length x <= hi) l.
Proof.
  rewrite !forallb_forall, Forall_forall. split.
  - intros [H1 H2] x Hx. apply list_elem_of_In in Hx.
    specialize (H1 x Hx). specialize (H2 x Hx). lia.
  - intros H. split; intros x Hx; apply list_elem_of_In, H in Hx; lia.
Qed.

(** X4.  [getStringList] returns exactly the pieces of a present, non-empty
    parameter between its commas, when their number and the length of each
    lie between the bounds; the pieces are neither trimmed nor dropped:
    joined with commas again they give the parameter's text, and none holds
    a comma. *)
Theorem getStringList_result req name a b lo hi items :
  getStringList req name a b lo hi = Ok items <->
  exists v, params req !! name = Some v /\ v <> EmptyString
            /\ items = Js.split (ascii_of_nat 44) v
            /\ Js.join (ascii_of_nat 44) items = v
            /\ Forall (fun x => Js.contains (ascii_of_nat 44) x = false) items
            /\ default 1 a <= Z.of_nat (length items) <= default 2147483647 b
            /\ Forall (fun x => default 1 lo <= Js.length x
                                <= default 2147483647 hi) items.
Proof.
  unfold getStringList. split.
  - intros H. apply bind_Ok in H as (v & Hget & H).
    apply get_iff in Hget as [Hp Hne].
    destruct (Z.ltb_spec (Z.of_nat (length (Js.split (ascii_of_nat 44) v)))
                (default 1 a)); [discriminate|].
    destruct (Z.ltb_spec (default 2147483647 b)
                (Z.of_nat (length (Js.split (ascii_of_nat 44) v)))); [discriminate|].
    destruct (forallb (fun x => default 1 lo <=? Js.length x) _) eqn:Hmin;
      [|discriminate].
    destruct (forallb (fun x => Js.length x <=? default 2147483647 hi) _) eqn:Hmax;
      [|discriminate].
    simpl in H. injection H as <-. exists v.
    split; [exact Hp|]. split; [exact Hne|]. split; [reflexivity|].
    split; [apply join_split|]. split; [apply split_items_without_separator|].
    split; [lia|]. apply forallb_bounds. auto.
  - intros (v & Hp & Hne & -> & _ & _ & Hcount & Hlen).
    assert (Hget : get req name = Ok v) by (apply get_iff; auto).
    rewrite Hget. simpl.
    destruct (Z.ltb_spec (Z.of_nat (length (Js.split (ascii_of_nat 44) v)))
                (default 1 a)); [lia|].
    destruct (Z.ltb_spec (default 2147483647 b)
                (Z.of_nat (length (Js.split (ascii_of_nat 44) v)))); [lia|].
    apply forallb_bounds in Hlen as [-> ->]. reflexivity.
Qed.

(** *** Enumeration members *)

Import QueryParserEnums.

Lemma moderationFlag_of_text_iff value flag :
  moderationFlag_of_text value = Some flag <-> value = text_of_moderationFlag flag.
Proof.
  split.
  - unfold moderationFlag_of_text.
    repeat (match goal with
            | |- (if String.eqb ?a ?b then _ else _) = _ -> _ =>
                destruct (String.eqb_spec a b) as [->|_];
                [intros [= <-]; reflexivity|]
            end).
    discriminate.
  - intros ->. destruct flag; reflexivity.
Qed.

Lemma getString_unbounded req name v :
  getString req name None None = Ok v <->
  params req !! name = Some v /\ v <> EmptyString /\ Js.length v <= 2147483647.
Proof.
  rewrite getString_iff. simpl. split.
  - intros (? & ? & ?). repeat split; auto; lia.
  - intros (? & Hne & ?). pose proof (length_pos v Hne). repeat split; auto; lia.
Qed.

(** X5.  Each enumeration getter succeeds on exactly one text per member,
    the lower-case name the source lists for it, so the member returned
    determines the parameter's text. *)
Theorem enum_getters_result req name :
  (forall flag, getModerationFlag req name = Ok flag <->
                params req !! name = Some (text_of_moderationFlag flag))
  /\ (forall m, getMarkedPostType req name = Ok m <->
                params req !! name = Some (text_of_markedPostType m))
  /\ (forall m, getMailbox req name = Ok m <->
                params req !! name = Some (text_of_mailbox m)).
Proof.
  split; [|split].
  - intros flag. unfold getModerationFlag. split.
    + intros H. apply bind_Ok in H as (v & Hv & H).
      apply getString_unbounded in Hv as (Hp & _).
      destruct (moderationFlag_of_text v) as [f|] eqn:Hf; [|discriminate].
      injection H as ->. apply moderationFlag_of_text_iff in Hf. congruence.
    + intros Hp.
      assert (Hs : getString req name None None = Ok (text_of_moderationFlag flag)).
      { apply getString_unbounded. split; [exact Hp|].
        destruct flag; (split; [discriminate | vm_compute; discriminate]). }
      rewrite Hs. simpl.
      rewrite (proj2 (moderationFlag_of_text_iff _ flag) eq_refl). reflexivity.
  - intros m. unfold getMarkedPostType. split.
    + intros H. apply bind_Ok in H as (v & Hv & H).
      apply getString_unbounded in Hv as (Hp & _).
      destruct (String.eqb_spec v "unmarked") as [->|_];
        [injection H as <-; exact Hp|].
      destruct (String.eqb_spec v "pinned") as [->|_];
        [injection H as <-; exact Hp|].
      destruct (String.eqb_spec v "collapsed") as [->|_];
        [injection H as <-; exact Hp|discriminate].
    + intros Hp.
      assert (Hs : getString req name None None = Ok (text_of_markedPostType m)).
      { apply getString_unbounded. split; [exact Hp|].
        destruct m; (split; [discriminate | vm_compute; discriminate]). }
      rewrite Hs. destruct m; reflexivity.
  - intros m. unfold getMailbox. split.
    + intros H. apply bind_Ok in H as (v & Hv & H).
      apply getString_unbounded in Hv as (Hp & _).
      destruct (String.eqb_spec v "inbox") as [->|_];
        [injection H as <-; exact Hp|].
      destruct (String.eqb_spec v "sent") as [->|_];
        [injection H as <-; exact Hp|discriminate].
    + intros Hp.
      assert (Hs : getString req name None None = Ok (text_of_mailbox m)).
      { apply getString_unbounded. split; [exact Hp|].
        destruct m; (split; [discriminate | vm_compute; discriminate]). }
      rewrite Hs. destruct m; reflexivity.
Qed.

(** *** Errors *)

Lemma enum_getter_throws {A} req name (k : string -> Result A) e :
  (forall v e', k v = Throw e' -> code e' = ERR_ARGUMENT) ->
  (getString req name None None ≫= k) = Throw e -> code e = ERR_ARGUMENT.
Proof.
  intros Hk H. apply bind_Throw in H as [H|(v & _ & H)].
  - eapply getString_throws. eassumption.
  - eapply Hk. eassumption.
Qed.

Lemma getModerationFlag_throws req name e :
  getModerationFlag req name = Throw e -> code e = ERR_ARGUMENT.
Proof.
  apply enum_getter_throws. intros v e'.
  destruct (moderationFlag_of_text v); [discriminate|]. intros [= <-]. reflexivity.
Qed.

Lemma getMarkedPostType_throws req name e :
  getMarkedPostType req name = Throw e -> code e = ERR_ARGUMENT.
Proof.
  apply enum_getter_throws. intros v e'.
  repeat (destruct (String.eqb v _); [discriminate|]). intros [= <-]. reflexivity.
Qed.

Lemma getMailbox_throws req name e :
  getMailbox req name = Throw e -> code e = ERR_ARGUMENT.
Proof.
  apply enum_getter_throws. intros v e'.
  repeat (destruct (String.eqb v _); [discriminate|]). intros [= <-]. reflexivity.
Qed.

(** X7.  Whatever a getter of a single value throws is an argument error:
    the code of every error of [getString], [getBoolean], [getInteger], the
    enumeration getters and the optional getters is [ERR_ARGUMENT].  (The
    two list getters call [split] on the value before any check and are not
    part of this statement.) *)
Theorem getters_throw_argument_errors req name e :
  (forall lo hi, getString req name lo hi = Throw e -> code e = ERR_ARGUMENT)
  /\ (getBoolean req name = Throw e -> code e = ERR_ARGUMENT)
  /\ (forall lo hi, getInteger req name lo hi = Throw e -> code e = ERR_ARGUMENT)
  /\ (getModerationFlag req name = Throw e -> code e = ERR_ARGUMENT)
  /\ (getMarkedPostType req name = Throw e -> code e = ERR_ARGUMENT)
  /\ (getMailbox req name = Throw e -> code e = ERR_ARGUMENT)
  /\ (forall d, getOptionalBoolean req name d = Throw e -> code e = ERR_ARGUMENT)
  /\ (forall d lo hi,
        getOptionalInteger req name d lo hi = Throw e -> code e = ERR_ARGUMENT)
  /\ (forall d lo hi,
        getOptionalString req name d lo hi = Throw e -> code e = ERR_ARGUMENT)
  /\ (forall d,
        getOptionalModerationFlag req name d = Throw e -> code e = ERR_ARGUMENT).
Proof.
  repeat split; intros.
  - eapply getString_throws; eassumption.
  - eapply getBoolean_throws; eassumption.
  - eapply getInteger_throws; eassumption.
  - eapply getModerationFlag_throws; eassumption.
  - eapply getMarkedPostType_throws; eassumption.
  - eapply getMailbox_throws; eassumption.
  - unfold getOptionalBoolean in H. destruct (has req name); [|discriminate].
    eapply getBoolean_throws; eassumption.
  - unfold getOptionalInteger in H. destruct (has req name); [|discriminate].
    eapply getInteger_throws; eassumption.
  - unfold getOptionalString in H. destruct (has req name); [|discriminate].
    eapply getString_throws; eassumption.
  - unfold getOptionalModerationFlag in H. destruct (has req name); [|discriminate].
    eapply getModerationFlag_throws; eassumption.
Qed.

End QueryParserResults.

(** ** What the routes accept and pass on *)

Module RouteResults.
Import QueryParser QueryParserFacts QueryParserEnums QueryParserResults.
Import WaitForEventRoute(decimal_value).

Lemma getBoolean_iff req name b :
  getBoolean req name = Ok b <->
  params req !! name = Some (if b then "true" else "false").
Proof.
  unfold getBoolean. split.
  - intros H. apply bind_Ok in H as (v & Hv & H). apply get_iff in Hv as [Hp _].
    destruct (String.eqb_spec v "true") as [->|_]; [injection H as <-; exact Hp|].
    destruct (String.eqb_spec v "false") as [->|_]; [injection H as <-; exact Hp|].
    discriminate.
  - intros Hp.
    assert (Hget : get req name = Ok (if b then "true" else "false")).
    { apply get_iff. split; [exact Hp | destruct b; discriminate]. }
    rewrite Hget. destruct b; reflexivity.
Qed.

Lemma true_or_false req name :
  params req !! name = Some "true" \/ params req !! name = Some "false" ->
  exists b, getBoolean req name = Ok b
            /\ bool_decide (params req !! name = Some "true") = b.
Proof.
  intros [H|H].
  - exists true. split; [apply getBoolean_iff; exact H|]. rewrite H. reflexivity.
  - exists false. split; [apply getBoolean_iff; exact H|]. rewrite H. reflexivity.
Qed.

Section SetCategoryFilters.
Import SetCategoryFilters.

(** X8.  The parsing of [/v2/clientData/setCategoryFilters] succeeds exactly
    when [username] is present with 1 to 50 characters and each of the five
    flag parameters is the text [true] or [false]; the filters handed to the
    connector are then the five flags, in the fixed order, whose parameter
    is [true], and the parameter of a flag is named as [getModerationFlag]
    names that flag. *)
Theorem setCategoryFilters_arguments req username filters :
  connector_arguments req = Ok (username, filters) <->
  params req !! "username" = Some username
  /\ 1 <= Js.length username <= 50
  /\ (forall f, f ∈ fixed_order ->
                params req !! text_of_moderationFlag f = Some "true"
                \/ params req !! text_of_moderationFlag f = Some "false")
  /\ filters
     = List.filter
         (fun f => bool_decide (params req !! text_of_moderationFlag f = Some "true"))
         fixed_order.
Proof.
  unfold connector_arguments. split.
  - intros H.
    apply bind_Ok in H as (u & Hu & H).
    apply bind_Ok in H as (b1 & H1 & H).
    apply bind_Ok in H as (b2 & H2 & H).
    apply bind_Ok in H as (b3 & H3 & H).
    apply bind_Ok in H as (b4 & H4 & H).
    apply bind_Ok in H as (b5 & H5 & H).
    injection H as <- <-.
    apply getString_iff in Hu as (Hp & _ & Hlen). simpl in Hlen.
    apply getBoolean_iff in H1, H2, H3, H4, H5.
    split; [exact Hp|]. split; [exact Hlen|]. split.
    + intros f Hf. unfold fixed_order in Hf.
      repeat (apply elem_of_cons in Hf as [->|Hf];
              [simpl; match goal with
                      | Hb : params req !! ?n = Some (if ?b then _ else _)
                        |- params req !! ?n = _ \/ _ =>
                          rewrite Hb; destruct b; auto
                      end|]).
      inversion Hf.
    + unfold fixed_order. simpl. rewrite H1, H2, H3, H4, H5.
      destruct b1, b2, b3, b4, b5; reflexivity.
  - intros (Hp & Hlen & Hall & ->).
    assert (Hu : getString req "username" (Some 1) (Some 50) = Ok username).
    { apply getString_iff. split; [exact Hp|]. split; [|exact Hlen].
      intros ->. unfold Js.length in Hlen. simpl in Hlen. lia. }
    rewrite Hu. simpl.
    destruct (true_or_false req "nws") as (b1 & -> & H1);
      [apply (Hall NotWorkSafe); unfold fixed_order; repeat constructor|].
    destruct (true_or_false req "stupid") as (b2 & -> & H2);
      [apply (Hall Stupid); unfold fixed_order; repeat constructor|].
    destruct (true_or_false req "political") as (b3 & -> & H3);
      [apply (Hall PoliticalReligious); unfold fixed_order; repeat constructor|].
    destruct (true_or_false req "tangent") as (b4 & -> & H4);
      [apply (Hall Tangent); unfold fixed_order; repeat constructor|].
    destruct (true_or_false req "informative") as (b5 & -> & H5);
      [apply (Hall Informative); unfold fixed_order; repeat constructor|].
    simpl. unfold fixed_order. simpl. rewrite H1, H2, H3, H4, H5.
    destruct b1, b2, b3, b4, b5; reflexivity.
Qed.

End SetCategoryFilters.

Section GetPost.
Import GetPostRoute.
Context {HtmlPost : Type}.
Variable getThreads : list number -> list Post.
Variable removeNukedSubthreads : list Post -> list Post.
Variable postToHtml : Post -> HtmlPost.

Lemma found_posts_single x :
  (length (found_posts getThreads removeNukedSubthreads [x]) <= 1)%nat.
Proof.
  unfold found_posts. cbn [map]. rewrite filter_cons, filter_nil.
  destruct (decide (lookup_post _ x <> None)) as [Hsome|Hnone].
  - destruct (lookup_post _ x); simpl; lia.
  - simpl. lia.
Qed.

(** X9.  [/v2/getPost] succeeds exactly when [id] is a single run of decimal
    digits with a value from 1 to 2147483647, and answers with the read
    path for that one id: a successful response never holds more than one
    post. *)
Theorem getPost_route_single req :
  (forall posts,
      route getThreads removeNukedSubthreads postToHtml req = Ok posts <->
      exists v, params req !! "id" = Some v
                /\ Js.integerRegEx_test v = true
                /\ 1 <= decimal_value v <= 2147483647
                /\ posts = read_path getThreads removeNukedSubthreads postToHtml
                              [Num (decimal_value v)])
  /\ (forall posts,
        route getThreads removeNukedSubthreads postToHtml req = Ok posts ->
        (length posts <= 1)%nat).
Proof.
  assert (Hiff : forall posts,
      route getThreads removeNukedSubthreads postToHtml req = Ok posts <->
      exists v, params req !! "id" = Some v
                /\ Js.integerRegEx_test v = true
                /\ 1 <= decimal_value v <= 2147483647
                /\ posts = read_path getThreads removeNukedSubthreads postToHtml
                              [Num (decimal_value v)]).
  { intros posts. unfold route, parse_ids. split.
    - intros H. apply bind_Ok in H as (ids & Hids & H). injection H as <-.
      apply getIntegerList_returns in Hids as (v & Hp & Hre & _ & Hb & ->).
      simpl in Hb. exists v. auto.
    - intros (v & Hp & Hre & Hb & ->).
      assert (Hids : getIntegerList req "id" (Some 1) (Some 50) (Some 1) None
                     = Ok [Num (decimal_value v)]).
      { apply getIntegerList_accepts; simpl; auto; lia. }
      rewrite Hids. reflexivity. }
  split; [exact Hiff|].
  intros posts H. apply Hiff in H as (v & _ & _ & _ & ->).
  unfold read_path. rewrite length_map. apply found_posts_single.
Qed.

End GetPost.

Lemma getPost_route_single_witness :
  GetPostRoute.route Samples.getThreads TreeAssembler.pruneNukedSubtrees
    Samples.postToHtml (GetPostRoute.request_for_ids "4") = Ok [4]
  /\ (length [4] <= 1)%nat.
Proof.
  assert (H : GetPostRoute.route Samples.getThreads TreeAssembler.pruneNukedSubtrees
                Samples.postToHtml (GetPostRoute.request_for_ids "4") = Ok [4])
    by (vm_compute; reflexivity).
  split; [exact H|].
  exact (proj2 (getPost_route_single Samples.getThreads
                  TreeAssembler.pruneNukedSubtrees Samples.postToHtml
                  (GetPostRoute.request_for_ids "4")) [4] H).
Defined.

Section WaitForEvent.
Import WaitForEventRoute.
Context {Dispatcher : Type}.
Variable dispatcher_waitForEvent : number -> Dispatcher -> list Event * Dispatcher.

(** X10.  [/v2/waitForEvent] reaches the dispatcher exactly when
    [lastEventId] is a run of one to ten decimal digits with a value of at
    most 2147483647; the dispatcher is then asked once, with that value, and
    the response carries the events it resolved with and the state it
    left. *)
Theorem waitForEvent_route_accepts req d resp d' :
  route dispatcher_waitForEvent req d = (Ok resp, d') <->
  exists v, params req !! "lastEventId" = Some v
            /\ Js.integerRegEx_test v = true
            /\ Js.length v <= 10
            /\ decimal_value v <= 2147483647
            /\ resp = respond (Num (decimal_value v))
                        (dispatcher_waitForEvent (Num (decimal_value v)) d).1
            /\ d' = (dispatcher_waitForEvent (Num (decimal_value v)) d).2.
Proof.
  unfold route. split.
  - destruct (getInteger req "lastEventId" None None) as [n|e] eqn:Hget;
      [|discriminate].
    apply getInteger_returns in Hget as (v & Hp & Hre & Hlen & Hb & ->).
    simpl in Hb.
    destruct (dispatcher_waitForEvent (Num (decimal_value v)) d) as [evs d1] eqn:Hw.
    intros [= <- <-]. exists v. rewrite Hw.
    split; [exact Hp|]. split; [exact Hre|]. split; [exact Hlen|].
    split; [lia|]. split; reflexivity.
  - intros (v & Hp & Hre & Hlen & Hb & -> & ->).
    assert (Hget : getInteger req "lastEventId" None None = Ok (Num (decimal_value v))).
    { apply getInteger_accepts; try assumption.
      pose proof (decimal_value_bounds v (proj2 (proj1 (regex_all_digits v) Hre))).
      simpl. lia. }
    rewrite Hget.
    destruct (dispatcher_waitForEvent (Num (decimal_value v)) d) as [evs d1].
    reflexivity.
Qed.

End WaitForEvent.

End RouteResults.

(** ** More on [MemoryAccountConnector] *)

Module MemoryAccountConnectorResults.
Import MemoryAccountConnector MemoryAccountConnectorFacts DictionaryFacts.

Lemma equal_ignoring_case_refl s : equal_ignoring_case s s.
Proof. apply equal_ignoring_case_toLowerCase. reflexivity. Qed.

(** X11.  A login that resolves credentials resolves the very username and
    password given, with the level of the stored account that carries
    them; and for that username [userExists] resolves true. *)
Theorem tryLogin_success initialAccounts u p cred :
  tryLogin (constructor initialAccounts) u p = Some cred ->
  exists a, stored (constructor initialAccounts) a
            /\ username a = u /\ password a = p
            /\ cred = {| cred_username := u; cred_password := p;
                         cred_level := level a |}
            /\ userExists (constructor initialAccounts) u = true.
Proof.
  unfold tryLogin, Dictionary.lookup_or_null.
  destruct (_accounts (constructor initialAccounts) !! u) as [a|] eqn:Ha;
    [|discriminate].
  destruct (String.eqb_spec (password a) p) as [Hp|]; [|discriminate].
  intros [= <-]. exists a.
  pose proof (constructor_key _ _ _ Ha) as [_ Hu].
  assert (Hs : stored (constructor initialAccounts) a) by (exists u; exact Ha).
  repeat split; try assumption.
  apply userExists_iff. exists a. split; [exact Hs|].
  rewrite Hu. apply equal_ignoring_case_refl.
Qed.

Lemma tryLogin_success_witness :
  tryLogin (constructor [account_Bob]) "Bob" "pw"
  = Some {| cred_username := "Bob"; cred_password := "pw"; cred_level := 1 |}
  /\ exists a, stored (constructor [account_Bob]) a
               /\ username a = "Bob" /\ password a = "pw"
               /\ {| cred_username := "Bob"; cred_password := "pw"; cred_level := 1 |}
                  = {| cred_username := "Bob"; cred_password := "pw";
                       cred_level := level a |}
               /\ userExists (constructor [account_Bob]) "Bob" = true.
Proof.
  assert (H : tryLogin (constructor [account_Bob]) "Bob" "pw"
              = Some {| cred_username := "Bob"; cred_password := "pw";
                        cred_level := 1 |})
    by (vm_compute; reflexivity).
  split; [exact H|].
  exact (tryLogin_success [account_Bob] "Bob" "pw" _ H).
Defined.

(** X12.  [userExists] does not see the case of the letters of its
    argument: two names that are equal up to case get the same answer, from
    any connector. *)
Theorem userExists_ignores_case (this : t) (u u' : string) :
  equal_ignoring_case u u' -> userExists this u = userExists this u'.
Proof.
  intros H. apply equal_ignoring_case_toLowerCase in H.
  unfold userExists. rewrite H. reflexivity.
Qed.

Lemma userExists_ignores_case_witness :
  equal_ignoring_case "BOB" "bob"
  /\ userExists (constructor [account_Bob]) "BOB"
     = userExists (constructor [account_Bob]) "bob".
Proof.
  assert (H : equal_ignoring_case "BOB" "bob").
  { apply equal_ignoring_case_toLowerCase. reflexivity. }
  split; [exact H|].
  exact (userExists_ignores_case (constructor [account_Bob]) "BOB" "bob" H).
Defined.

(** *** Registration dates *)

Lemma registration_dates_snoc this usernames u :
  getUserRegistrationDates this (Some (usernames ++ [u]))
  = match _accounts this !! u with
    | Some account =>
        <[u := registrationDate account]>
          (getUserRegistrationDates this (Some usernames))
    | None => getUserRegistrationDates this (Some usernames)
    end.
Proof. unfold getUserRegistrationDates. rewrite foldl_app. reflexivity. Qed.

Lemma registration_dates_lookup this usernames u :
  getUserRegistrationDates this (Some usernames) !! u
  = if bool_decide (u ∈ usernames)
    then registrationDate <$> _accounts this !! u else None.
Proof.
  induction usernames as [|w usernames IH] using rev_ind.
  - simpl. rewrite lookup_empty. reflexivity.
  - rewrite registration_dates_snoc.
    destruct (decide (w = u)) as [->|Hne].
    + rewrite (bool_decide_eq_true_2 (u ∈ usernames ++ [u]))
        by (apply elem_of_app; right; constructor).
      destruct (_accounts this !! u) as [a|] eqn:Ha.
      * rewrite lookup_insert_eq. reflexivity.
      * rewrite IH. case_bool_decide; reflexivity.
    + assert (Hmem : bool_decide (u ∈ usernames ++ [w]) = bool_decide (u ∈ usernames)).
      { apply bool_decide_ext. rewrite elem_of_app, list_elem_of_singleton.
        split; [intros [?|?]; [assumption|congruence] | auto]. }
      rewrite Hmem.
      destruct (_accounts this !! w) as [a|]; [rewrite lookup_insert_ne by assumption|];
        exact IH.
Qed.

(** X13.  [getUserRegistrationDates] with a list of usernames holds a
    username exactly when it was asked for and an account is stored under
    exactly that spelling, with that account's registration date; a name
    without an account is left out, and nothing that was not asked for is
    reported. *)
Theorem registration_dates_of_usernames (this : t) (usernames : list string)
    (u : string) (date : Z) :
  getUserRegistrationDates this (Some usernames) !! u = Some date <->
  u ∈ usernames
  /\ exists a, _accounts this !! u = Some a /\ registrationDate a = date.
Proof.
  rewrite registration_dates_lookup. case_bool_decide as Hu.
  - destruct (_accounts this !! u) as [a|]; simpl.
    + split; [intros [= <-]; eauto | intros (_ & a' & [= <-] & <-); reflexivity].
    + split; [discriminate | intros (_ & a' & [=] & _)].
  - split; [discriminate | intros [Hin _]; contradiction].
Qed.

Lemma elem_of_values {K V} `{Countable K} (dict : gmap K V) (v : V) :
  v ∈ Dictionary.values dict <-> exists k, dict !! k = Some v.
Proof.
  unfold Dictionary.values. rewrite list_elem_of_fmap. split.
  - intros ([k v'] & -> & Hin). apply elem_of_map_to_list in Hin. eauto.
  - intros [k Hk]. exists (k, v). split; [reflexivity|].
    apply elem_of_map_to_list. exact Hk.
Qed.

Lemma registration_dates_all_lookup initialAccounts u :
  getUserRegistrationDates (constructor initialAccounts) None !! u
  = registrationDate <$> _accounts (constructor initialAccounts) !! u.
Proof.
  set (this := constructor initialAccounts).
  unfold getUserRegistrationDates.
  destruct (Dictionary.fromArray (Dictionary.values (_accounts this))
              username registrationDate !! u) as [date|] eqn:Hl.
  - apply lookup_fromArray_Some in Hl as (a & Ha & Hu & Hd).
    apply elem_of_values in Ha as [k Hk].
    pose proof (constructor_key _ _ _ Hk) as [_ Hk'].
    assert (k = u) as -> by congruence.
    rewrite Hk. simpl. congruence.
  - destruct (_accounts this !! u) as [a|] eqn:Ha; [|reflexivity].
    exfalso. rewrite lookup_fromArray_None in Hl.
    apply (Hl a).
    + apply elem_of_values. eauto.
    + apply (constructor_key _ _ _ Ha).
Qed.

(** X14.  Without a list, [getUserRegistrationDates] reports every stored
    account under its username with its registration date; it is what the
    call with the list of all stored usernames gives. *)
Theorem registration_dates_of_all initialAccounts :
  let this := constructor initialAccounts in
  (forall u, getUserRegistrationDates this None !! u
             = registrationDate <$> _accounts this !! u)
  /\ getUserRegistrationDates this None
     = getUserRegistrationDates this (Some (Dictionary.keys (_accounts this))).
Proof.
  intros this. split; [apply registration_dates_all_lookup|].
  apply map_eq. intros u.
  unfold this. rewrite registration_dates_all_lookup, registration_dates_lookup.
  case_bool_decide as Hu; [reflexivity|].
  destruct (_accounts (constructor initialAccounts) !! u) as [a|] eqn:Ha;
    [|reflexivity].
  exfalso. apply Hu, elem_of_keys. eauto.
Qed.

End MemoryAccountConnectorResults.
